(** * Import service of strapi-plugin-import-export-entries

    A shallow embedding of [server/services/import/import.js]
    ([importData], [updateOrCreate], [updateOrCreateRelation]) and the
    properties of the recursive upsert that its specification states.

    Modelling choices, all visible in the definitions below.

    - JavaScript values are [value]; objects and arrays live in a heap and
      are passed by reference ([VRef]), because [updateOrCreateRelation]
      overwrites fields of the record it is given and [importData] later
      reports that same record.
    - Only own properties are modelled: the names looked up are relation
      attribute names of a schema and [id], never members of a prototype,
      [length] or an array index.  Numbers are integers (no [NaN]).
    - An [async] function is a computation over the state (heap, store,
      log of store calls) that returns, throws, or runs out of fuel.
      Fuel bounds the nesting of [updateOrCreate]; the source recurses
      without a guard, so a cyclic record never finishes.
    - [Promise.all] over [xs.map(f)] starts every promise and cancels none.
      The model runs them one after the other in array order (each to its
      end), and rejects with the first rejection in that order.
    - The store ([strapi.db.query(slug).create/update]), the schema
      ([getModelAttributes]) and the parser ([parseInputData]) are an
      interface, [Backend], that the import is run against.
    - [catchError] and [ObjectBuilder] are helpers of the plugin whose
      source is not at hand; they are modelled from the specification. *)

From stdpp Require Import gmap strings list.
From Stdlib Require Import ZArith Lia.

Open Scope string_scope.
Open Scope list_scope.

(** ** Values and heap *)

Inductive value :=
| VUndef
| VNull
| VBool (b : bool)
| VNum (z : Z)
| VStr (s : string)
| VRef (l : nat).

#[global] Instance value_eq_dec : EqDecision value.
Proof. solve_decision. Defined.

(** A heap cell: a plain object, or an array (its elements and the named
    properties that were set on it). *)
Inductive cell :=
| CObj (props : gmap string value)
| CArr (elems : list value) (props : gmap string value).

Abbreviation heap := (list cell).

(** An object that comes from outside the import (the acting user, an
    entry returned by the store): [None] is [null]/[undefined], [Some p]
    an object with properties [p].  The import never writes to these. *)
Abbreviation entry := (option (gmap string value)).

Inductive error :=
| TypeError
| StoreError (msg : string).

#[global] Instance error_eq_dec : EqDecision error.
Proof. solve_decision. Defined.

(** [Attribute] of a model, as far as the import reads it. *)
Record Attribute := mkAttribute { name : string; target : string }.

Inductive format := csv | json.

(** Boolean coercion of a value ([if (v)], [!v], [v && _], [v || _]). *)
Definition truthy (v : value) : bool :=
  match v with
  | VUndef | VNull => false
  | VBool b => b
  | VNum z => negb (z =? 0)%Z
  | VStr s => negb (String.eqb s "")
  | VRef _ => true
  end.

(** [typeof v === "object"] *)
Definition typeof_object (v : value) : bool :=
  match v with
  | VNull | VRef _ => true
  | _ => false
  end.

Definition cell_props (c : cell) : gmap string value :=
  match c with
  | CObj p => p
  | CArr _ p => p
  end.

Definition cell_set (k : string) (x : value) (c : cell) : cell :=
  match c with
  | CObj p => CObj (<[k:=x]> p)
  | CArr es p => CArr es (<[k:=x]> p)
  end.

(** [o[k]] of the object at [l]: an absent property reads [undefined]. *)
Definition get_own (h : heap) (l : nat) (k : string) : value :=
  match h !! l with
  | Some c => default VUndef (cell_props c !! k)
  | None => VUndef
  end.

(** [Array.isArray(v)] *)
Definition isArray (h : heap) (v : value) : bool :=
  match v with
  | VRef l => match h !! l with Some (CArr _ _) => true | _ => false end
  | _ => false
  end.

Definition array_elems (h : heap) (v : value) : list value :=
  match v with
  | VRef l => match h !! l with Some (CArr es _) => es | _ => [] end
  | _ => []
  end.

(** [e.id] and the like on an object from outside: a [TypeError] on
    [null]/[undefined]. *)
Definition entry_get (e : entry) (k : string) : error + value :=
  match e with
  | None => inl TypeError
  | Some p => inr (default VUndef (p !! k))
  end.

(** [e?.id] *)
Definition entry_get_opt (e : entry) (k : string) : value :=
  match e with
  | None => VUndef
  | Some p => default VUndef (p !! k)
  end.

(** [a || b] on values *)
Definition js_or (a b : value) : value := if truthy a then a else b.

(** Result of [catchError]. *)
Record CatchResult := mkCatch {
  success : bool;
  cr_error : option error;
  args : list value
}.

(** [ImportDataFailures] and [ImportDataRes] of the source's typedefs. *)
Record ImportDataFailures := mkFailure { f_error : option error; f_data : value }.
Record ImportDataRes := mkRes { failures : list ImportDataFailures }.

(** Modelled from the spec: [ObjectBuilder] of [libs/objects] is not among
    the sources.  The spec gives the update as
    [update(collection, {id: record.id}, record)]: the builder starts from
    the empty object, [extend] adds the given properties and [get] returns
    the object built. *)
Module ObjectBuilder.
Definition new : gmap string value := ∅.
Definition extend (b o : gmap string value) : gmap string value := o ∪ b.
Definition get (b : gmap string value) : gmap string value := b.
End ObjectBuilder.

(** ** State and computations *)

(** A call to the store, with the heap the payload was read in. *)
Inductive event :=
| EvCreate (slug : string) (data : value) (h : heap)
| EvUpdate (slug : string) (where_ : gmap string value) (data : value) (h : heap).

(** The heap, the state of the store, and the log of the calls made to it. *)
Record state (S : Type) := mkState {
  st_heap : heap;
  st_db : S;
  st_log : list event
}.
Arguments mkState {S} st_heap st_db st_log.
Arguments st_heap {S} s.
Arguments st_db {S} s.
Arguments st_log {S} s.

(** An [async] call returns, throws, or does not end. *)
Inductive res (S A : Type) :=
| Ok (a : A) (st : state S)
| Throw (e : error) (st : state S)
| Diverge.
Arguments Ok {S A} a st.
Arguments Throw {S A} e st.
Arguments Diverge {S A}.

(** ** The surrounding system *)

(** What the import is run against.
    - [DB] is the state of the store, [db_create] and [db_update] its two
      operations ([strapi.db.query(slug).create/update]): a call gets the
      payload (a reference) with the heap it is to be read in; it answers
      with an entry or raises, and does not write to the heap.
    - [getModelAttributes slug] is [getModelAttributes(slug, "relation")]
      of [server/utils/models]: the relation attributes of a model, in
      schema order.
    - [parseInputData] of [./utils/parsers] is the input parser, outside
      the import proper: it builds the records in the heap, or raises. *)
Class Backend := {
  DB : Type;
  db_create : string -> value -> heap -> DB -> (error + entry) * DB;
  db_update :
    string -> gmap string value -> value -> heap -> DB -> (error + entry) * DB;
  getModelAttributes : string -> list Attribute;
  Raw : Type;
  parseInputData : format -> Raw -> string -> state DB -> res DB (list value)
}.

Section ImportService.

Context `{Bk : Backend}.

Definition M (A : Type) : Type := state DB -> res DB A.

Definition ret {A} (a : A) : M A := fun st => Ok a st.
Definition throw {A} (e : error) : M A := fun st => Throw e st.
Definition diverge {A} : M A := fun _ => Diverge.

Definition bind {A B} (m : M A) (k : A -> M B) : M B :=
  fun st =>
    match m st with
    | Ok a st' => k a st'
    | Throw e st' => Throw e st'
    | Diverge => Diverge
    end.

Notation "'let*' x ':=' c 'in' k" := (bind c (fun x => k))
  (at level 10, x name, c at level 100, k at level 200).
Notation "c ';;' k" := (bind c (fun _ => k))
  (at level 100, k at level 200, right associativity).

Definition lift_sum {A} (r : error + A) : M A :=
  match r with
  | inl e => throw e
  | inr a => ret a
  end.

(** Reading the heap. *)
Definition reads {A} (f : heap -> A) : M A := fun st => Ok (f (st_heap st)) st.

Definition set_heap (st : state DB) (h : heap) : state DB :=
  mkState h (st_db st) (st_log st).

(** [v[k]]: a [TypeError] on [null] and [undefined], [undefined] on the
    other primitives. *)
Definition get_prop (v : value) (k : string) : M value :=
  match v with
  | VUndef | VNull => throw TypeError
  | VRef l => reads (fun h => get_own h l k)
  | _ => ret VUndef
  end.

(** [v[k] = x]: a [TypeError] on [null] and [undefined]; on the other
    primitives the assignment is dropped (the file is not in strict mode). *)
Definition set_prop (v : value) (k : string) (x : value) : M unit :=
  match v with
  | VUndef | VNull => throw TypeError
  | VRef l => fun st => Ok tt (set_heap st (alter (cell_set k x) l (st_heap st)))
  | _ => ret tt
  end.

(** A new array; its reference is the next free location. *)
Definition new_array (es : list value) : M value :=
  fun st => Ok (VRef (length (st_heap st))) (set_heap st (st_heap st ++ [CArr es ∅])).

(** [Promise.all] over promises that are already created.  In the source
    the sibling calls are all started before the first [await], so their
    calls to the store interleave and the rejection is the first one in
    time; here each promise runs to its end before the next one, in array
    order.  What is stated below about a promise is stated relative to
    its own outcome, not to its place among its siblings. *)
Fixpoint promise_all {A} (ps : list (M A)) : M (list A) :=
  match ps with
  | [] => ret []
  | p :: ps' =>
      fun st =>
        match p st with
        | Ok a st1 =>
            match promise_all ps' st1 with
            | Ok rest st2 => Ok (a :: rest) st2
            | Throw e st2 => Throw e st2
            | Diverge => Diverge
            end
        | Throw e st1 =>
            match promise_all ps' st1 with
            | Ok _ st2 | Throw _ st2 => Throw e st2
            | Diverge => Diverge
            end
        | Diverge => Diverge
        end
  end.

(** [xs.map(f)] where [f] may throw (it does so on the first element
    that throws). *)
Fixpoint map_throw {A B} (f : A -> error + B) (xs : list A) : error + list B :=
  match xs with
  | [] => inr []
  | x :: xs' =>
      match f x with
      | inl e => inl e
      | inr b =>
          match map_throw f xs' with
          | inl e => inl e
          | inr bs => inr (b :: bs)
          end
      end
  end.

(** [strapi.db.query(slug).create({ data })] *)
Definition query_create (slug : string) (data : value) : M entry :=
  fun st =>
    let st1 := mkState (st_heap st) (st_db st)
                 (st_log st ++ [EvCreate slug data (st_heap st)]) in
    match db_create slug data (st_heap st) (st_db st) with
    | (inr e, db') => Ok e (mkState (st_heap st1) db' (st_log st1))
    | (inl err, db') => Throw err (mkState (st_heap st1) db' (st_log st1))
    end.

(** [strapi.db.query(slug).update({ where, data })] *)
Definition query_update (slug : string) (where_ : gmap string value)
    (data : value) : M entry :=
  fun st =>
    let st1 := mkState (st_heap st) (st_db st)
                 (st_log st ++ [EvUpdate slug where_ data (st_heap st)]) in
    match db_update slug where_ data (st_heap st) (st_db st) with
    | (inr e, db') => Ok e (mkState (st_heap st1) db' (st_log st1))
    | (inl err, db') => Throw err (mkState (st_heap st1) db' (st_log st1))
    end.

(** ** The import *)

Definition is_audit (relName : string) : bool :=
  bool_decide (relName ∈ ["createdBy"; "updatedBy"]).

(** [updateOrCreateRelation], with the recursive call to [updateOrCreate]
    as [uoc]. *)
Definition updateOrCreateRelation_with
    (uoc : entry -> string -> value -> M entry)
    (user : entry) (rel : Attribute) (data : value) : M unit :=
  let relName := name rel in
  if is_audit relName then
    let* uid := lift_sum (entry_get user "id") in
    set_prop data relName uid
  else
    let* v := get_prop data relName in
    let* arr := reads (fun h => isArray h v) in
    if truthy v && arr then
      let* v1 := get_prop data relName in
      let* relDatas := reads (fun h => array_elems h v1) in
      let* entries :=
        promise_all (map (fun relData => uoc user (target rel) relData) relDatas) in
      let* ids := lift_sum (map_throw (fun e => entry_get e "id") entries) in
      let* a := new_array ids in
      set_prop data relName a
    else
      let* v2 := get_prop data relName in
      if truthy v2 && typeof_object v2 then
        let* v3 := get_prop data relName in
        let* e := uoc user (target rel) v3 in
        set_prop data relName (js_or (entry_get_opt e "id") VNull)
      else ret tt.

(** Lines 60-77 of the source: the record's own write to the store. *)
Definition upsert (slug : string) (data : value) : M entry :=
  let* id := get_prop data "id" in
  let* whereBuilder :=
    (if truthy id then
       let* id1 := get_prop data "id" in
       ret (ObjectBuilder.extend ObjectBuilder.new {["id" := id1]})
     else ret ObjectBuilder.new) in
  let where_ := ObjectBuilder.get whereBuilder in
  if negb (truthy (default VUndef (where_ !! "id"))) then
    query_create slug data
  else
    let* e := query_update slug where_ data in
    if negb (bool_decide (is_Some e)) then query_create slug data
    else ret e.

Fixpoint updateOrCreate (fuel : nat) (user : entry) (slug : string)
    (data : value) : M entry :=
  match fuel with
  | O => diverge
  | S n =>
      let relations := getModelAttributes slug in
      let processingRelations :=
        map (fun rel => updateOrCreateRelation_with (updateOrCreate n) user rel data)
            relations in
      promise_all processingRelations ;;
      upsert slug data
  end.

Definition updateOrCreateRelation (fuel : nat) :=
  updateOrCreateRelation_with (updateOrCreate fuel).

(** Modelled from the spec: [catchError] of [server/utils] is not among
    the sources.  The spec has each record reconciled "inside an isolating
    boundary": an error raised by the call is captured, not propagated,
    and the outcome is a result with the error and the input it was
    called on; [importData] reads [success], [error] and [args[0]] of it.
    The arguments are kept as they were passed, an object by reference. *)
Definition catchError {A} (fn : value -> M A) (arg : value) : M CatchResult :=
  fun st =>
    match fn arg st with
    | Ok _ st' => Ok (mkCatch true None [arg]) st'
    | Throw e st' => Ok (mkCatch false (Some e) [arg]) st'
    | Diverge => Diverge
    end.

(** The [for ... of] loop of [importData] (lines 28-35). *)
Fixpoint process (fuel : nat) (user : entry) (slug : string)
    (data : list value) : M (list CatchResult) :=
  match data with
  | [] => ret []
  | datum :: rest =>
      let* r := catchError (fun datum => updateOrCreate fuel user slug datum) datum in
      let* processed := process fuel user slug rest in
      ret (r :: processed)
  end.

(** [processed.filter(p => !p.success).map(f => ({error, data: f.args[0]}))] *)
Definition failures_of (processed : list CatchResult) : list ImportDataFailures :=
  map (fun f => mkFailure (cr_error f) (default VUndef (args f !! 0%nat)))
      (filter (fun p => negb (success p) = true) processed).

Definition importData (fuel : nat) (dataRaw : Raw) (slug : string)
    (fmt : format) (user : entry) : M ImportDataRes :=
  let* data := parseInputData fmt dataRaw slug in
  let* processed := process fuel user slug data in
  ret (mkRes (failures_of processed)).

(** The state a computation ends in, if it ends. *)
Definition res_state {A} (r : res DB A) : option (state DB) :=
  match r with
  | Ok _ st | Throw _ st => Some st
  | Diverge => None
  end.

Definition ev_slug (ev : event) : string :=
  match ev with EvCreate s _ _ | EvUpdate s _ _ _ => s end.
Definition ev_data (ev : event) : value :=
  match ev with EvCreate _ d _ | EvUpdate _ _ d _ => d end.
Definition ev_heap (ev : event) : heap :=
  match ev with EvCreate _ _ h | EvUpdate _ _ _ h => h end.

(** *** Records without cycles

    A rank for every location, under which each object and array ranks
    above what it holds; locations not yet in use have rank 1, the rank of
    the arrays of identifiers that the import allocates. *)
Definition is_ref (v : value) : bool :=
  match v with VRef _ => true | _ => false end.

Definition vrank (rk : nat -> nat) (v : value) : nat :=
  match v with VRef l => rk l | _ => 0 end.

Definition cell_elems (c : cell) : list value :=
  match c with CObj _ => [] | CArr es _ => es end.

Definition cell_ranked (rk : nat -> nat) (r : nat) (c : cell) : Prop :=
  0 < r /\
  map_Forall (fun _ v => vrank rk v < r) (cell_props c) /\
  Forall (fun v => vrank rk v < r) (cell_elems c).

Definition ranked (rk : nat -> nat) (h : heap) : Prop :=
  (forall l c, h !! l = Some c -> cell_ranked rk (rk l) c) /\
  (forall l, length h <= l -> rk l = 1).

(** Ranks given as a list, one per location in use, and the test that a
    heap is ranked by them. *)
Definition rank_of (ranks : list nat) (l : nat) : nat := default 1 (ranks !! l).

Definition cell_ranked_b (rk : nat -> nat) (r : nat) (c : cell) : bool :=
  (0 <? r)%nat &&
  bool_decide (map_Forall (fun _ v => vrank rk v < r) (cell_props c)) &&
  forallb (fun v => (vrank rk v <? r)%nat) (cell_elems c).

Definition ranked_b (ranks : list nat) (h : heap) : bool :=
  (length ranks =? length h)%nat &&
  forallb (fun rc => cell_ranked_b (rank_of ranks) (fst rc) (snd rc)) (zip ranks h).

(** A relation field that holds no nested record any more: a value that
    is no object, or an array of such values. *)
Definition resolved (h : heap) (v : value) : Prop :=
  match v with
  | VRef a =>
      exists es p, h !! a = Some (CArr es p) /\
                   Forall (fun x => is_ref x = false) es
  | _ => True
  end.

(** The identifiers the store hands out are not objects. *)
Definition scalar_id (e : entry) : Prop := is_ref (entry_get_opt e "id") = false.

Definition store_scalar_ids : Prop :=
  (forall slug data h db e db',
     db_create slug data h db = (inr e, db') -> scalar_id e) /\
  (forall slug w data h db e db',
     db_update slug w data h db = (inr e, db') -> scalar_id e).

(** ** Notions the properties are stated with *)

(** The heap only grows and the log is only appended to. *)
Definition extends (st st' : state DB) : Prop :=
  length (st_heap st) <= length (st_heap st') /\
  st_log st `prefix_of` st_log st'.

Definition steps {A} (m : M A) : Prop :=
  forall st,
    match m st with
    | Ok _ st' | Throw _ st' => extends st st'
    | Diverge => True
    end.

(** From [h] to [h']: nothing is removed, the cells ranked above [m] are as
    they were, an array keeps its elements and an object stays an object. *)
Definition frame (rk : nat -> nat) (m : nat) (h h' : heap) : Prop :=
  length h <= length h' /\
  (forall l c, m < rk l -> h !! l = Some c -> h' !! l = Some c) /\
  (forall a es p, h !! a = Some (CArr es p) -> exists p', h' !! a = Some (CArr es p')) /\
  (forall a p, h !! a = Some (CObj p) -> exists p', h' !! a = Some (CObj p')).

(** [c], started in a heap ranked by [rk], leaves a ranked heap that
    differs from it only up to rank [m], and its result satisfies [Q].
    Running out of fuel counts as [D]: [False] to show that a computation
    ends, [True] to state what holds if it does. *)
Definition safe (rk : nat -> nat) (D : Prop) {A} (m : nat) (Q : A -> Prop)
    (c : M A) : Prop :=
  forall st, ranked rk (st_heap st) ->
    match c st with
    | Ok a st' =>
        ranked rk (st_heap st') /\ frame rk m (st_heap st) (st_heap st') /\ Q a
    | Throw _ st' =>
        ranked rk (st_heap st') /\ frame rk m (st_heap st) (st_heap st')
    | Diverge => D
    end.

(** The recursive call is safe on what ranks below the record. *)
Definition uoc_safe (rk : nat -> nat) (user : entry) (D : Prop)
    (uoc : entry -> string -> value -> M entry) (r : nat) : Prop :=
  forall slug v, vrank rk v < r -> safe rk D (vrank rk v) scalar_id (uoc user slug v).

(** A record on which reconciliation returned, or raised [e]. *)
Definition fulfilled (d : value) : CatchResult := mkCatch true None [d].
Definition rejected (e : error) (d : value) : CatchResult := mkCatch false (Some e) [d].

Definition prepend {A} (a : A) (r : res DB (list A)) : res DB (list A) :=
  match r with
  | Ok l st => Ok (a :: l) st
  | Throw e st => Throw e st
  | Diverge => Diverge
  end.

(** What the loop has collected when it ends: one result per record, in
    order; a failure holds the record it was called on and the error that
    its reconciliation raised. *)
Inductive collected (fuel : nat) (user : entry) (slug : string) :
    list value -> state DB -> list CatchResult -> state DB -> Prop :=
| collected_nil st : collected fuel user slug [] st [] st
| collected_ok d data st x st1 ps st2 :
    updateOrCreate fuel user slug d st = Ok x st1 ->
    collected fuel user slug data st1 ps st2 ->
    collected fuel user slug (d :: data) st (fulfilled d :: ps) st2
| collected_failed d data st e st1 ps st2 :
    updateOrCreate fuel user slug d st = Throw e st1 ->
    collected fuel user slug data st1 ps st2 ->
    collected fuel user slug (d :: data) st (rejected e d :: ps) st2.


(** ** Notions the further properties are stated with *)

(** [v[k]] as read in [h], for a value that is not [null] or [undefined]. *)
Definition prop_of (h : heap) (v : value) (k : string) : value :=
  match v with VRef l => get_own h l k | _ => VUndef end.

(** A boolean, a number or a string. *)
Definition is_prim (v : value) : bool :=
  match v with VBool _ | VNum _ | VStr _ => true | _ => false end.

(** A call to the store as [updateOrCreate] makes it, after the calls
    [before]: an update is on [{id}], the truthy [id] of its payload; a
    create is of a payload whose [id] is falsy, or else comes after an
    update for the same model and payload. *)
Definition call_ok (before : list event) (ev : event) : Prop :=
  match ev with
  | EvUpdate s w d h =>
      w = {["id" := prop_of h d "id"]} /\ truthy (prop_of h d "id") = true
  | EvCreate s d h =>
      truthy (prop_of h d "id") = false \/
      exists w h', EvUpdate s w d h' ∈ before
  end.

Definition calls_ok (l : list event) : Prop :=
  forall i ev, l !! i = Some ev -> call_ok (take i l) ev.

(** [m] only appends to the log, and what it appends is [calls_ok]. *)
Definition logs_ok {A} (m : M A) : Prop :=
  forall st,
    match m st with
    | Ok _ st' | Throw _ st' =>
        exists new, st_log st' = st_log st ++ new /\ calls_ok new
    | Diverge => True
    end.

(** [m2] does what [m1] does, wherever [m1] ends. *)
Definition refines {A} (m1 m2 : M A) : Prop :=
  forall st, m1 st <> Diverge -> m2 st = m1 st.

End ImportService.

(** * A store, a schema and a batch to run the import on *)

Module Example.

(** The store counts its rows; their identifiers are [1..db].  An article
    needs a [title]; an update finds the rows that exist. *)
Definition field (h : heap) (v : value) (k : string) : value :=
  match v with VRef l => get_own h l k | _ => VUndef end.

Definition create (slug : string) (data : value) (h : heap) (db : Z)
    : (error + entry) * Z :=
  if String.eqb slug "article" && negb (truthy (field h data "title")) then
    (inl (StoreError "title must be defined"), db)
  else (inr (Some {["id" := VNum (db + 1)]}), (db + 1)%Z).

Definition update (slug : string) (where_ : gmap string value) (data : value)
    (h : heap) (db : Z) : (error + entry) * Z :=
  match where_ !! "id" with
  | Some (VNum i) =>
      if ((0 <? i) && (i <=? db))%Z then (inr (Some {["id" := VNum i]}), db)
      else (inr None, db)
  | _ => (inr None, db)
  end.

Definition author := mkAttribute "author" "person".
Definition tags := mkAttribute "tags" "tag".
Definition createdBy := mkAttribute "createdBy" "admin::user".
Definition updatedBy := mkAttribute "updatedBy" "admin::user".

Definition schema (slug : string) : list Attribute :=
  if String.eqb slug "article" then [author; tags; createdBy; updatedBy]
  else [].

(** The parser hands over the records it is given. *)
Definition parse (fmt : format) (raw : list value) (slug : string)
    (st : state Z) : res Z (list value) :=
  Ok raw st.

#[export] Instance backend : Backend := {|
  DB := Z;
  db_create := create;
  db_update := update;
  getModelAttributes := schema;
  Raw := list value;
  parseInputData := parse
|}.

Definition user : entry := Some {["id" := VNum 42]}.

(** An article with an author and two tags (0), and an article that has
    no title (5). *)
Definition h0 : heap :=
  [ CObj {["title" := VStr "Hello"; "author" := VRef 1; "tags" := VRef 2;
           "createdBy" := VStr "bob"]};
    CObj {["name" := VStr "Ann"]};
    CArr [VRef 3; VRef 4] ∅;
    CObj {["id" := VNum 1; "label" := VStr "x"]};
    CObj {["label" := VStr "y"]};
    CObj {["createdBy" := VStr "bob"; "author" := VNull]} ].

Definition ranks0 : list nat := [3; 1; 2; 1; 1; 1].

(** One row in the store. *)
Definition st0 : state DB := mkState h0 1%Z [].

(** A store whose first row gets the identifier 0. *)
Definition st_zero : state DB := mkState h0 (-1)%Z [].

(** The state a computation ends in ([st0] if it does not end). *)
Definition final {A} (r : res DB A) : state DB := default st0 (res_state r).

(** The batch of both articles, and the batch of the one without title. *)
Definition both : M ImportDataRes :=
  importData 4 [VRef 5; VRef 0] "article" json user.


Definition no_title : error := StoreError "title must be defined".

Definition person_created : state DB :=
  mkState h0 2%Z [EvCreate "person" (VRef 1) h0].

Definition tags_reconciled : res DB (list entry) :=
  promise_all
    (map (fun relData => updateOrCreate 1 user "tag" relData) [VRef 3; VRef 4]) st0.

Definition untitled_failed : state DB :=
  final (updateOrCreate 4 user "article" (VRef 5) st0).


End Example.

(** A second store and schema: the store answers a create of a tag with
    nothing, and a series has a first article. *)
Module Example2.

Import Example.

Definition create (slug : string) (data : value) (h : heap) (db : Z)
    : (error + entry) * Z :=
  if String.eqb slug "tag" then (inr None, db) else Example.create slug data h db.

Definition first := mkAttribute "first" "article".

Definition schema (slug : string) : list Attribute :=
  if String.eqb slug "series" then [first] else Example.schema slug.

Definition backend : Backend := {|
  DB := Z;
  db_create := create;
  db_update := update;
  getModelAttributes := schema;
  Raw := list value;
  parseInputData := parse
|}.

(** The heap of the first example, and a series (6) whose first article
    is the one without title. *)
Definition h1 : heap := h0 ++ [CObj {["first" := VRef 5]}].

Definition st1 : state Z := mkState h1 1%Z [].

(** The batch of both articles without an acting user. *)
Definition anonymous : M ImportDataRes :=
  importData 4 [VRef 5; VRef 0] "article" json None.

End Example2.

(** * Properties of the import *)

Section Properties.

Context `{Bk : Backend}.

Notation "'let*' x ':=' c 'in' k" := (bind c (fun x => k))
  (at level 10, x name, c at level 100, k at level 200).
Notation "c ';;' k" := (bind c (fun _ => k))
  (at level 100, k at level 200, right associativity).

(** ** Basic facts *)

Lemma is_audit_true relName :
  is_audit relName = true <-> relName = "createdBy" \/ relName = "updatedBy".
Proof.
  unfold is_audit. rewrite bool_decide_eq_true.
  rewrite !elem_of_cons, elem_of_nil. tauto.
Qed.

Lemma get_own_alter_eq (h : heap) l k x c :
  h !! l = Some c -> get_own (alter (cell_set k x) l h) l k = x.
Proof.
  intros Hl. unfold get_own. rewrite list_lookup_alter_eq, Hl. simpl.
  destruct c; simpl; by rewrite lookup_insert_eq.
Qed.

Lemma get_own_alter_ne_key (h : heap) l k k' x :
  k <> k' -> get_own (alter (cell_set k x) l h) l k' = get_own h l k'.
Proof.
  intros Hk. unfold get_own. rewrite list_lookup_alter_eq.
  destruct (h !! l) as [c|]; simpl; [|done].
  destruct c; simpl; by rewrite lookup_insert_ne.
Qed.

Lemma lookup_alter_ne_loc (h : heap) l l' k x :
  l <> l' -> alter (cell_set k x) l h !! l' = h !! l'.
Proof. intros Hl. by rewrite list_lookup_alter_ne. Qed.

Lemma js_or_null_not_undef v : js_or v VNull <> VUndef.
Proof. unfold js_or. destruct v; simpl; try discriminate; by case_match. Qed.

(** ** The heap only grows and the log is only appended to *)

Lemma extends_refl st : extends st st.
Proof. split; [lia|reflexivity]. Qed.

Lemma extends_trans st1 st2 st3 :
  extends st1 st2 -> extends st2 st3 -> extends st1 st3.
Proof. intros [? ?] [? ?]. split; [lia|by etrans]. Qed.

Lemma extends_lookup st st' l c :
  extends st st' -> st_heap st !! l = Some c -> is_Some (st_heap st' !! l).
Proof.
  intros [Hlen _] Hl. apply lookup_lt_is_Some.
  apply lookup_lt_Some in Hl. lia.
Qed.

Lemma steps_ret {A} (a : A) : steps (ret a).
Proof. intros st. apply extends_refl. Qed.

Lemma steps_throw {A} e : steps (throw (A:=A) e).
Proof. intros st. apply extends_refl. Qed.

Lemma steps_diverge {A} : steps (diverge (A:=A)).
Proof. intros st. exact I. Qed.

Lemma steps_bind {A B} (m : M A) (k : A -> M B) :
  steps m -> (forall a, steps (k a)) -> steps (bind m k).
Proof.
  intros Hm Hk st. unfold bind. specialize (Hm st).
  destruct (m st) as [a st1|e st1|]; [|done|done].
  specialize (Hk a st1). destruct (k a st1); eauto using extends_trans.
Qed.

Lemma steps_lift_sum {A} (r : error + A) : steps (lift_sum r).
Proof. destruct r; [apply steps_throw|apply steps_ret]. Qed.

Lemma steps_reads {A} (f : heap -> A) : steps (reads f).
Proof. intros st. apply extends_refl. Qed.

Lemma steps_get_prop v k : steps (get_prop v k).
Proof.
  destruct v; simpl;
    first [apply steps_throw | apply steps_reads | apply steps_ret].
Qed.

Lemma steps_set_prop v k x : steps (set_prop v k x).
Proof.
  destruct v; simpl; try first [apply steps_throw | apply steps_ret].
  intros st. split; simpl; [by rewrite length_alter|reflexivity].
Qed.

Lemma steps_new_array es : steps (new_array es).
Proof.
  intros st. split; simpl; [rewrite length_app; lia|reflexivity].
Qed.

Lemma steps_query_create slug data : steps (query_create slug data).
Proof.
  intros st. unfold query_create.
  destruct (db_create _ _ _ _) as [[e|e] db']; split; simpl;
    try lia; by apply prefix_app_r.
Qed.

Lemma steps_query_update slug w data : steps (query_update slug w data).
Proof.
  intros st. unfold query_update.
  destruct (db_update _ _ _ _ _) as [[e|e] db']; split; simpl;
    try lia; by apply prefix_app_r.
Qed.

Lemma steps_promise_all {A} (ps : list (M A)) :
  Forall steps ps -> steps (promise_all ps).
Proof.
  induction 1 as [|p ps Hp _ IH]; [apply steps_ret|].
  intros st. simpl. specialize (Hp st).
  destruct (p st) as [a st1|e st1|]; [| |done].
  - specialize (IH st1). destruct (promise_all ps st1); eauto using extends_trans.
  - specialize (IH st1). destruct (promise_all ps st1); eauto using extends_trans.
Qed.

Lemma steps_relation uoc user rel data :
  (forall u s v, steps (uoc u s v)) ->
  steps (updateOrCreateRelation_with uoc user rel data).
Proof.
  intros Huoc. unfold updateOrCreateRelation_with.
  destruct (is_audit (name rel)).
  { apply steps_bind; [apply steps_lift_sum|]. intros; apply steps_set_prop. }
  apply steps_bind; [apply steps_get_prop|]. intros v.
  apply steps_bind; [apply steps_reads|]. intros arr.
  destruct (truthy v && arr).
  - apply steps_bind; [apply steps_get_prop|]. intros v1.
    apply steps_bind; [apply steps_reads|]. intros relDatas.
    apply steps_bind.
    { apply steps_promise_all, Forall_map, Forall_forall. intros; apply Huoc. }
    intros entries. apply steps_bind; [apply steps_lift_sum|]. intros ids.
    apply steps_bind; [apply steps_new_array|]. intros; apply steps_set_prop.
  - apply steps_bind; [apply steps_get_prop|]. intros v2.
    destruct (truthy v2 && typeof_object v2); [|apply steps_ret].
    apply steps_bind; [apply steps_get_prop|]. intros v3.
    apply steps_bind; [apply Huoc|]. intros; apply steps_set_prop.
Qed.

Lemma steps_upsert slug data : steps (upsert slug data).
Proof.
  unfold upsert. apply steps_bind; [apply steps_get_prop|]. intros id.
  apply steps_bind.
  { destruct (truthy id); [|apply steps_ret].
    apply steps_bind; [apply steps_get_prop|]. intros; apply steps_ret. }
  intros w. destruct (negb _); [apply steps_query_create|].
  apply steps_bind; [apply steps_query_update|]. intros e.
  destruct (negb _); [apply steps_query_create|apply steps_ret].
Qed.

Lemma steps_updateOrCreate fuel user slug data :
  steps (updateOrCreate fuel user slug data).
Proof.
  revert user slug data. induction fuel as [|n IH]; intros user slug data.
  - apply steps_diverge.
  - simpl. apply steps_bind; [|intros; apply steps_upsert].
    apply steps_promise_all, Forall_map, Forall_forall. intros rel _.
    by apply steps_relation.
Qed.

(** ** Relation attributes *)

(** What [updateOrCreateRelation] does on a record for an attribute that
    is not an audit relation: the three reads of [data[relName]] see the
    same value [v]. *)
Lemma relation_unfold uoc user rel l st :
  is_audit (name rel) = false ->
  updateOrCreateRelation_with uoc user rel (VRef l) st =
  let v := get_own (st_heap st) l (name rel) in
  if truthy v && isArray (st_heap st) v then
    (let* entries :=
       promise_all (map (fun relData => uoc user (target rel) relData)
                        (array_elems (st_heap st) v)) in
     let* ids := lift_sum (map_throw (fun e => entry_get e "id") entries) in
     let* a := new_array ids in
     set_prop (VRef l) (name rel) a) st
  else if truthy v && typeof_object v then
    (let* e := uoc user (target rel) v in
     set_prop (VRef l) (name rel) (js_or (entry_get_opt e "id") VNull)) st
  else Ok tt st.
Proof.
  intros Haudit. unfold updateOrCreateRelation_with. rewrite Haudit.
  unfold bind at 1 2. unfold get_prop, reads. cbv zeta.
  destruct (truthy _ && isArray _ _) eqn:Harr.
  - reflexivity.
  - unfold bind at 1. destruct (truthy _ && typeof_object _); reflexivity.
Qed.

(** C4: for a record and a relation attribute named [createdBy] or
    [updatedBy], [updateOrCreateRelation] sets that field of the record to
    the acting user's [id], whatever the record held there; nothing else
    changes and the store is not called. *)
Theorem audit_relation_overwritten fuel user rel l c st :
  name rel = "createdBy" \/ name rel = "updatedBy" ->
  st_heap st !! l = Some c ->
  is_Some user ->
  exists st',
    updateOrCreateRelation fuel user rel (VRef l) st = Ok tt st' /\
    get_own (st_heap st') l (name rel) = entry_get_opt user "id" /\
    (forall k, k <> name rel -> get_own (st_heap st') l k = get_own (st_heap st) l k) /\
    (forall l', l' <> l -> st_heap st' !! l' = st_heap st !! l') /\
    st_db st' = st_db st /\ st_log st' = st_log st.
Proof.
  intros Hname Hl [p ->].
  apply is_audit_true in Hname.
  unfold updateOrCreateRelation, updateOrCreateRelation_with.
  rewrite Hname. simpl. unfold bind, ret. simpl.
  eexists. split; [reflexivity|]. simpl.
  repeat split.
  - by eapply get_own_alter_eq.
  - intros k Hk. by apply get_own_alter_ne_key.
  - intros l' Hl'. by apply lookup_alter_ne_loc.
Qed.

(** C8: for a relation attribute other than the audit ones whose value in
    the record is [null], absent ([undefined]) or a scalar,
    [updateOrCreateRelation] returns with the state as it was, and makes
    no recursive call: the result is the same whatever [updateOrCreate]
    would do, also with no fuel left. *)
Theorem empty_or_scalar_relation_untouched user rel l st :
  is_audit (name rel) = false ->
  (forall n, get_own (st_heap st) l (name rel) <> VRef n) ->
  (forall uoc, updateOrCreateRelation_with uoc user rel (VRef l) st = Ok tt st) /\
  (forall fuel, updateOrCreateRelation fuel user rel (VRef l) st = Ok tt st).
Proof.
  intros Haudit Hv.
  assert (forall uoc, updateOrCreateRelation_with uoc user rel (VRef l) st = Ok tt st)
    as H.
  { intros uoc. rewrite relation_unfold by done.
    destruct (get_own (st_heap st) l (name rel)) as [| |b|z|s|n] eqn:Hg;
      simpl; rewrite ?andb_false_r; try reflexivity.
    by destruct (Hv n). }
  split; [exact H|]. intros fuel. apply H.
Qed.

(** The single-valued case of [updateOrCreateRelation]: the nested record
    is reconciled, then [data[relName] = entry?.id || null]. *)
Lemma single_relation_result fuel user rel l n c st e st1 :
  is_audit (name rel) = false ->
  st_heap st !! l = Some c ->
  get_own (st_heap st) l (name rel) = VRef n ->
  isArray (st_heap st) (VRef n) = false ->
  updateOrCreate fuel user (target rel) (VRef n) st = Ok e st1 ->
  exists st',
    updateOrCreateRelation fuel user rel (VRef l) st = Ok tt st' /\
    get_own (st_heap st') l (name rel) = js_or (entry_get_opt e "id") VNull /\
    (forall k, k <> name rel -> get_own (st_heap st') l k = get_own (st_heap st1) l k) /\
    st_db st' = st_db st1 /\ st_log st' = st_log st1.
Proof.
  intros Haudit Hl Hv Harr Hrec.
  unfold updateOrCreateRelation. rewrite relation_unfold by done.
  rewrite Hv. cbv zeta. rewrite Harr. simpl andb. cbv iota.
  unfold bind. rewrite Hrec. simpl.
  eexists. split; [reflexivity|]. simpl.
  pose proof (steps_updateOrCreate fuel user (target rel) (VRef n) st) as Hext.
  rewrite Hrec in Hext.
  destruct (extends_lookup _ _ _ _ Hext Hl) as [c1 Hl1].
  repeat split.
  - by eapply get_own_alter_eq.
  - intros k Hk. by apply get_own_alter_ne_key.
Qed.

(** C7: for a relation attribute whose value in the record is a single
    nested record (an object that is not an array), once that record is
    reconciled to [e], [updateOrCreateRelation] has replaced the field by
    [e?.id || null]: the identifier of [e] (a truthy one), and [null],
    never [undefined], when reconciliation yielded no record. *)
Theorem single_relation_replaced_by_id fuel user rel l n c st e st1 :
  is_audit (name rel) = false ->
  st_heap st !! l = Some c ->
  get_own (st_heap st) l (name rel) = VRef n ->
  isArray (st_heap st) (VRef n) = false ->
  updateOrCreate fuel user (target rel) (VRef n) st = Ok e st1 ->
  exists st',
    updateOrCreateRelation fuel user rel (VRef l) st = Ok tt st' /\
    st_db st' = st_db st1 /\ st_log st' = st_log st1 /\
    let v := get_own (st_heap st') l (name rel) in
    v <> VUndef /\
    (e = None -> v = VNull) /\
    (forall p id, e = Some p -> p !! "id" = Some id -> truthy id = true -> v = id).
Proof.
  intros Haudit Hl Hv Harr Hrec.
  destruct (single_relation_result _ _ _ _ _ _ _ _ _ Haudit Hl Hv Harr Hrec)
    as (st' & Hrun & Hfield & _ & Hdb & Hlog).
  exists st'. repeat split; try done; cbv zeta; rewrite Hfield.
  - apply js_or_null_not_undef.
  - by intros ->.
  - intros p id -> Hid Ht. unfold js_or. simpl. rewrite Hid. simpl. by rewrite Ht.
Qed.

(** C10: when the nested record of a single-valued relation is reconciled
    to a record whose [id] is falsy ([0], the empty string, missing), the
    field of the parent is set to [null], not to that identifier. *)
Theorem falsy_id_stored_as_null fuel user rel l n c st p st1 :
  is_audit (name rel) = false ->
  st_heap st !! l = Some c ->
  get_own (st_heap st) l (name rel) = VRef n ->
  isArray (st_heap st) (VRef n) = false ->
  updateOrCreate fuel user (target rel) (VRef n) st = Ok (Some p) st1 ->
  truthy (default VUndef (p !! "id")) = false ->
  exists st',
    updateOrCreateRelation fuel user rel (VRef l) st = Ok tt st' /\
    get_own (st_heap st') l (name rel) = VNull.
Proof.
  intros Haudit Hl Hv Harr Hrec Hfalsy.
  destruct (single_relation_result _ _ _ _ _ _ _ _ _ Haudit Hl Hv Harr Hrec)
    as (st' & Hrun & Hfield & _).
  exists st'. split; [done|]. rewrite Hfield. unfold js_or. simpl.
  by rewrite Hfalsy.
Qed.

(** [Promise.all] fulfils when every promise does: element by element,
    each in the state its predecessor left. *)
Lemma promise_all_Ok {A B} (f : A -> M B) xs st rs st' :
  promise_all (map f xs) st = Ok rs st' ->
  length rs = length xs /\
  forall i x, xs !! i = Some x ->
    exists sti r sti', f x sti = Ok r sti' /\ rs !! i = Some r.
Proof.
  revert st rs st'. induction xs as [|x xs IH]; intros st rs st' Hrun; simpl in Hrun.
  - inversion Hrun; subst. split; [done|]. intros i y Hi. by destruct i.
  - destruct (f x st) as [r st1|e st1|] eqn:Hx; [| |done].
    + destruct (promise_all (map f xs) st1) as [rest st2|e st2|] eqn:Hrest;
        [|done|done].
      inversion Hrun; subst. destruct (IH _ _ _ Hrest) as [Hlen Hall].
      split; [simpl; lia|]. intros [|i] y Hi; simpl in Hi.
      * inversion Hi; subst. eauto.
      * apply Hall in Hi. exact Hi.
    + by destruct (promise_all (map f xs) st1).
Qed.

Lemma map_throw_entries (entries : list entry) :
  Forall is_Some entries ->
  map_throw (fun e => entry_get e "id") entries =
  inr (map (fun e => entry_get_opt e "id") entries).
Proof.
  induction 1 as [|e es [p ->] _ IH]; [done|]. simpl. by rewrite IH.
Qed.

(** C6: for a relation attribute whose value in the record is an array,
    once its elements are reconciled (in order) to the records [entries],
    [updateOrCreateRelation] has replaced the field by a new array of
    their identifiers, one per element and in the order of the input; for
    the empty array the field becomes a new empty array, without any call
    to the store. *)
Theorem many_relation_replaced_by_ids fuel user rel l c a es props st :
  is_audit (name rel) = false ->
  st_heap st !! l = Some c ->
  get_own (st_heap st) l (name rel) = VRef a ->
  st_heap st !! a = Some (CArr es props) ->
  (forall entries st1,
     promise_all
       (map (fun relData => updateOrCreate fuel user (target rel) relData) es) st
       = Ok entries st1 ->
     Forall is_Some entries ->
     exists st' a' ids,
       updateOrCreateRelation fuel user rel (VRef l) st = Ok tt st' /\
       get_own (st_heap st') l (name rel) = VRef a' /\
       st_heap st' !! a' = Some (CArr ids ∅) /\
       length ids = length es /\
       (forall i relData, es !! i = Some relData ->
          exists sti e sti',
            updateOrCreate fuel user (target rel) relData sti = Ok e sti' /\
            ids !! i = Some (entry_get_opt e "id")) /\
       st_db st' = st_db st1 /\ st_log st' = st_log st1) /\
  (es = [] ->
     exists st' a',
       updateOrCreateRelation fuel user rel (VRef l) st = Ok tt st' /\
       get_own (st_heap st') l (name rel) = VRef a' /\
       st_heap st' !! a' = Some (CArr [] ∅) /\
       st_db st' = st_db st /\ st_log st' = st_log st).
Proof.
  intros Haudit Hl Hv Ha.
  assert (forall entries st1,
     promise_all
       (map (fun relData => updateOrCreate fuel user (target rel) relData) es) st
       = Ok entries st1 ->
     Forall is_Some entries ->
     updateOrCreateRelation fuel user rel (VRef l) st =
       Ok tt (set_heap st1
                (alter (cell_set (name rel) (VRef (length (st_heap st1)))) l
                   (st_heap st1 ++
                    [CArr (map (fun e => entry_get_opt e "id") entries) ∅]))) /\
     l < length (st_heap st1)) as Hrun.
  { intros entries st1 Hall Hsome.
    unfold updateOrCreateRelation. rewrite relation_unfold by done.
    rewrite Hv. cbv zeta. unfold isArray, array_elems. rewrite Ha. simpl andb.
    cbv iota. unfold bind at 1. rewrite Hall.
    rewrite map_throw_entries by done. split; [reflexivity|].
    pose proof (steps_promise_all
      (map (fun relData => updateOrCreate fuel user (target rel) relData) es)) as Hext.
    specialize (Hext ltac:(apply Forall_map, Forall_forall; intros;
                           apply steps_updateOrCreate) st).
    rewrite Hall in Hext. destruct Hext as [Hlen _].
    apply lookup_lt_Some in Hl. lia. }
  assert (forall (h : heap) ids (k : string),
            l < length h ->
            get_own (alter (cell_set k (VRef (length h))) l (h ++ [CArr ids ∅])) l k
              = VRef (length h) /\
            alter (cell_set k (VRef (length h))) l (h ++ [CArr ids ∅]) !! length h
              = Some (CArr ids ∅)) as Hheap.
  { intros h ids k Hlt. split.
    - destruct (lookup_lt_is_Some_2 h l Hlt) as [c1 Hc1].
      eapply get_own_alter_eq. rewrite lookup_app_l by done. exact Hc1.
    - rewrite list_lookup_alter_ne by lia.
      rewrite lookup_app_r by lia. by rewrite Nat.sub_diag. }
  split.
  - intros entries st1 Hall Hsome.
    destruct (Hrun _ _ Hall Hsome) as [-> Hlt].
    destruct (Hheap (st_heap st1) (map (fun e => entry_get_opt e "id") entries)
                (name rel) Hlt) as [Hf Hn].
    destruct (promise_all_Ok _ _ _ _ _ Hall) as [Hlen Hpos].
    do 3 eexists. split; [reflexivity|]. simpl.
    split; [exact Hf|]. split; [exact Hn|].
    split; [by rewrite length_map|]. split; [|done].
    intros i relData Hi. destruct (Hpos _ _ Hi) as (sti & e & sti' & He & Hei).
    exists sti, e, sti'. split; [done|]. by rewrite list_lookup_fmap, Hei.
  - intros ->. destruct (Hrun [] st eq_refl (List.Forall_nil _)) as [-> Hlt].
    destruct (Hheap (st_heap st) [] (name rel) Hlt) as [Hf Hn].
    do 2 eexists. split; [reflexivity|]. simpl. by repeat split.
Qed.

(** ** The record's own write *)

Lemma query_create_log slug data st :
  st_log <$> res_state (query_create slug data st) =
  Some (st_log st ++ [EvCreate slug data (st_heap st)]).
Proof. unfold query_create. by destruct (db_create _ _ _ _) as [[e|e] db']. Qed.

(** [upsert] on a record, by the [id] it holds. *)
Lemma upsert_unfold slug l st :
  upsert slug (VRef l) st =
  let id := get_own (st_heap st) l "id" in
  if truthy id then
    (let* e := query_update slug {["id" := id]} (VRef l) in
     if negb (bool_decide (is_Some e)) then query_create slug (VRef l)
     else ret e) st
  else query_create slug (VRef l) st.
Proof.
  unfold upsert. unfold bind at 1 2. unfold get_prop, reads. cbv zeta.
  destruct (truthy (get_own (st_heap st) l "id")) eqn:Hid.
  - unfold bind at 1. unfold reads, ret.
    unfold ObjectBuilder.get, ObjectBuilder.extend, ObjectBuilder.new.
    rewrite (right_id_L ∅ (∪)). rewrite lookup_singleton_eq. simpl.
    by rewrite Hid.
  - unfold ret. unfold ObjectBuilder.get, ObjectBuilder.new.
    by rewrite lookup_empty.
Qed.

Lemma updateOrCreate_unfold n user slug data st :
  updateOrCreate (S n) user slug data st =
  match
    promise_all
      (map (fun rel => updateOrCreateRelation n user rel data)
           (getModelAttributes slug)) st
  with
  | Ok _ st1 => upsert slug data st1
  | Throw e st1 => Throw e st1
  | Diverge => Diverge
  end.
Proof. reflexivity. Qed.

(** ** Records without cycles: what reconciliation touches, and that it ends *)

Lemma ranked_b_sound ranks h :
  ranked_b ranks h = true -> ranked (rank_of ranks) h.
Proof.
  unfold ranked_b. rewrite andb_true_iff, Nat.eqb_eq, forallb_forall.
  intros [Hlen Hall]. split.
  - intros l c Hl.
    destruct (lookup_lt_is_Some_2 ranks l) as [r Hr].
    { apply lookup_lt_Some in Hl. lia. }
    assert (In (r, c) (zip ranks h)) as Hin.
    { apply list_elem_of_In, list_elem_of_lookup. exists l.
      apply lookup_zip_with_Some. eauto. }
    specialize (Hall _ Hin). unfold cell_ranked_b in Hall. simpl in Hall.
    rewrite !andb_true_iff, Nat.ltb_lt, bool_decide_eq_true in Hall.
    destruct Hall as [[Hpos Hprops] Helems].
    assert (rank_of ranks l = r) as -> by (unfold rank_of; by rewrite Hr).
    split; [done|]. split; [done|].
    apply Forall_forall. intros v Hv. rewrite forallb_forall in Helems.
    apply Nat.ltb_lt, Helems. by apply list_elem_of_In.
  - intros l Hl. unfold rank_of. rewrite lookup_ge_None_2; [done|lia].
Qed.

Section Acyclic.

Variable rk : nat -> nat.
Variable user : entry.
Hypothesis store_ok : store_scalar_ids.
Hypothesis user_ok : scalar_id user.
Variable D : Prop.

Local Abbreviation frame := (frame rk).
Local Abbreviation safe := (safe rk D).
Local Abbreviation uoc_safe := (uoc_safe rk user D).

Lemma frame_refl m h : frame m h h.
Proof. split; [lia|]. split; [eauto|]. split; eauto. Qed.

Lemma frame_trans m h1 h2 h3 : frame m h1 h2 -> frame m h2 h3 -> frame m h1 h3.
Proof.
  intros (Hlen1 & Hup1 & Harr1 & Hobj1) (Hlen2 & Hup2 & Harr2 & Hobj2).
  split; [lia|]. split; [eauto|]. split.
  - intros a es p Ha. destruct (Harr1 _ _ _ Ha) as [p' Ha']. eauto.
  - intros a p Ha. destruct (Hobj1 _ _ Ha) as [p' Ha']. eauto.
Qed.

Lemma frame_mono m m' h h' : m <= m' -> frame m h h' -> frame m' h h'.
Proof.
  intros Hm (Hlen & Hup & Harr). split; [done|]. split; [|done].
  intros l c Hl. apply Hup. lia.
Qed.

Lemma frame_alter m (h : heap) l k x :
  rk l <= m -> frame m h (alter (cell_set k x) l h).
Proof.
  intros Hl. split; [by rewrite length_alter|]. split; [|split].
  - intros l' c Hl' Hc. rewrite list_lookup_alter_ne by (intros ->; lia). done.
  - intros a es p Ha. destruct (decide (l = a)) as [->|Hne].
    + rewrite list_lookup_alter_eq, Ha. simpl. eauto.
    + rewrite list_lookup_alter_ne by done. eauto.
  - intros a p Ha. destruct (decide (l = a)) as [->|Hne].
    + rewrite list_lookup_alter_eq, Ha. simpl. eauto.
    + rewrite list_lookup_alter_ne by done. eauto.
Qed.

Lemma frame_app m (h : heap) c : frame m h (h ++ [c]).
Proof.
  split; [rewrite length_app; lia|].
  split; [intros; by apply lookup_app_l_Some|]. split.
  - intros a es p Ha. exists p. by apply lookup_app_l_Some.
  - intros a p Ha. exists p. by apply lookup_app_l_Some.
Qed.

Lemma resolved_frame m h h' v : frame m h h' -> resolved h v -> resolved h' v.
Proof.
  intros (_ & _ & Harr & _). destruct v as [| | | | |a]; simpl; try done.
  intros (es & p & Ha & Hes). destruct (Harr _ _ _ Ha) as [p' Ha']. eauto.
Qed.

Lemma safe_ret {A} m (Q : A -> Prop) a : Q a -> safe m Q (ret a).
Proof. intros Ha st Hst. split; [done|]. split; [apply frame_refl|done]. Qed.

Lemma safe_throw {A} m (Q : A -> Prop) e : safe m Q (throw e).
Proof. intros st Hst. split; [done|apply frame_refl]. Qed.

Lemma safe_mono {A} m m' (Q : A -> Prop) c : m <= m' -> safe m Q c -> safe m' Q c.
Proof.
  intros Hm Hc st Hst. specialize (Hc st Hst).
  destruct (c st) as [a st'|e st'|]; [| |done].
  - destruct Hc as (? & ? & ?). eauto using frame_mono.
  - destruct Hc as (? & ?). eauto using frame_mono.
Qed.

Lemma safe_bind {A B} m (P : A -> Prop) (Q : B -> Prop) (c : M A) (k : A -> M B) :
  safe m P c -> (forall a, P a -> safe m Q (k a)) -> safe m Q (bind c k).
Proof.
  intros Hc Hk st Hst. unfold bind. specialize (Hc st Hst).
  destruct (c st) as [a st1|e st1|]; [|done|done].
  destruct Hc as (Hst1 & Hfr & Ha). specialize (Hk a Ha st1 Hst1).
  destruct (k a st1) as [b st2|e st2|]; [| |done].
  - destruct Hk as (? & ? & ?). eauto using frame_trans.
  - destruct Hk as (? & ?). eauto using frame_trans.
Qed.

Lemma safe_promise_all {A} m (Q : A -> Prop) (ps : list (M A)) :
  Forall (safe m Q) ps -> safe m (Forall Q) (promise_all ps).
Proof.
  induction 1 as [|p ps Hp _ IH]; [by apply safe_ret|].
  intros st Hst. simpl. specialize (Hp st Hst).
  destruct (p st) as [a st1|e st1|]; [| |done].
  - destruct Hp as (Hst1 & Hfr & Ha). specialize (IH st1 Hst1).
    destruct (promise_all ps st1) as [rest st2|e st2|]; [| |done].
    + destruct IH as (? & ? & ?).
      split; [done|]. split; [by eapply frame_trans|by constructor].
    + destruct IH as (? & ?). split; [done|by eapply frame_trans].
  - destruct Hp as (Hst1 & Hfr). specialize (IH st1 Hst1).
    destruct (promise_all ps st1) as [rest st2|e2 st2|]; [| |done].
    + destruct IH as (? & ? & ?). split; [done|by eapply frame_trans].
    + destruct IH as (? & ?). split; [done|by eapply frame_trans].
Qed.

Lemma ranked_set (h : heap) l k x :
  ranked rk h ->
  (is_Some (h !! l) -> vrank rk x < rk l) ->
  ranked rk (alter (cell_set k x) l h).
Proof.
  intros [Hcells Hfree] Hx. split; [|by rewrite length_alter].
  intros l' c'. destruct (decide (l = l')) as [<-|Hne].
  - rewrite list_lookup_alter_eq. destruct (h !! l) as [c|] eqn:Hl; [|done].
    simpl. intros [= <-]. destruct (Hcells _ _ Hl) as (Hpos & Hprops & Helems).
    specialize (Hx ltac:(eauto)).
    destruct c; (split; [done|]); (split; [|done]); simpl in *;
      by apply map_Forall_insert_2.
  - rewrite list_lookup_alter_ne by done. apply Hcells.
Qed.

Lemma ranked_set_scalar (h : heap) l k x :
  ranked rk h -> is_ref x = false -> ranked rk (alter (cell_set k x) l h).
Proof.
  intros Hh Hx. apply ranked_set; [done|]. intros [c Hl].
  destruct Hh as [Hcells _]. destruct (Hcells _ _ Hl) as [Hpos _].
  by destruct x.
Qed.

Lemma ranked_new_array (h : heap) ids :
  ranked rk h -> Forall (fun v => is_ref v = false) ids ->
  ranked rk (h ++ [CArr ids ∅]).
Proof.
  intros [Hcells Hfree] Hids. split.
  - intros l c Hl. apply lookup_app_Some in Hl as [Hl|[Hlen Hl]].
    + by apply Hcells.
    + apply list_lookup_singleton_Some in Hl as [Hz <-].
      rewrite Hfree by lia. split; [lia|]. split; [apply map_Forall_empty|].
      simpl. eapply Forall_impl; [exact Hids|]. intros [] ?; simpl; done || lia.
  - intros l Hl. rewrite length_app in Hl. simpl in Hl. apply Hfree. lia.
Qed.

Lemma ranked_field (h : heap) l k n :
  ranked rk h -> get_own h l k = VRef n -> rk n < rk l.
Proof.
  intros [Hcells _]. unfold get_own.
  destruct (h !! l) as [c|] eqn:Hl; [|done].
  destruct (cell_props c !! k) as [v|] eqn:Hk; [|done]. simpl. intros ->.
  destruct (Hcells _ _ Hl) as (_ & Hprops & _). exact (Hprops _ _ Hk).
Qed.

Lemma ranked_elems (h : heap) a es props v :
  ranked rk h -> h !! a = Some (CArr es props) -> v ∈ es ->
  0 < rk a /\ vrank rk v < rk a.
Proof.
  intros [Hcells _] Ha Hv. destruct (Hcells _ _ Ha) as (Hpos & _ & Helems).
  split; [done|]. simpl in Helems. rewrite Forall_forall in Helems. by apply Helems.
Qed.

Lemma scalar_ids_of entries ids :
  Forall scalar_id entries ->
  map_throw (fun e => entry_get e "id") entries = inr ids ->
  Forall (fun v => is_ref v = false) ids.
Proof.
  intros Hentries. revert ids.
  induction Hentries as [|e entries He _ IH]; intros ids Hids; simpl in Hids.
  - inversion Hids. constructor.
  - destruct e as [p'|]; [|done]. simpl in Hids.
    destruct (map_throw _ entries) as [|ids']; [done|].
    inversion Hids; subst. constructor; [exact He|by apply IH].
Qed.

Lemma js_or_null_scalar e : scalar_id e -> is_ref (js_or (entry_get_opt e "id") VNull) = false.
Proof. intros He. unfold js_or. by case_match. Qed.

Lemma safe_set_prop_scalar data k x :
  is_ref x = false -> safe (vrank rk data) (fun _ => True) (set_prop data k x).
Proof.
  intros Hx. destruct data as [| |b|z|s|l]; simpl;
    try (by apply safe_throw); try (by apply safe_ret).
  intros st Hst. simpl.
  split; [by apply ranked_set_scalar|]. split; [by apply frame_alter|done].
Qed.

(** The steps of [updateOrCreateRelation] on a record, when its field
    holds a reference. *)
Lemma safe_recursion uoc rel l n st :
  uoc_safe uoc (rk l) ->
  ranked rk (st_heap st) ->
  get_own (st_heap st) l (name rel) = VRef n ->
  match uoc user (target rel) (VRef n) st with
  | Ok e st1 =>
      ranked rk (st_heap st1) /\ frame (rk l) (st_heap st) (st_heap st1) /\
      st_heap st1 !! l = st_heap st !! l /\ scalar_id e
  | Throw _ st1 =>
      ranked rk (st_heap st1) /\ frame (rk l) (st_heap st) (st_heap st1) /\
      st_heap st1 !! l = st_heap st !! l
  | Diverge => D
  end.
Proof.
  intros Huoc Hst Hv. pose proof (ranked_field _ _ _ _ Hst Hv) as Hn.
  assert (is_Some (st_heap st !! l)) as [c Hl].
  { unfold get_own in Hv. destruct (st_heap st !! l); [eauto|done]. }
  pose proof (Huoc (target rel) (VRef n) Hn st Hst) as Hrec. simpl in Hrec.
  destruct (uoc _ _ _ st) as [e st1|e st1|]; [| |done].
  - destruct Hrec as (Hst1 & Hfr & He). split; [done|].
    split; [eapply frame_mono; [|exact Hfr]; lia|]. split; [|done].
    destruct Hfr as (_ & Hup & _). rewrite Hl. by apply Hup.
  - destruct Hrec as (Hst1 & Hfr). split; [done|].
    split; [eapply frame_mono; [|exact Hfr]; lia|].
    destruct Hfr as (_ & Hup & _). rewrite Hl. by apply Hup.
Qed.

Lemma safe_elements uoc rel l a es p st :
  uoc_safe uoc (rk l) ->
  ranked rk (st_heap st) ->
  get_own (st_heap st) l (name rel) = VRef a ->
  st_heap st !! a = Some (CArr es p) ->
  match promise_all (map (fun relData => uoc user (target rel) relData) es) st with
  | Ok entries st1 =>
      ranked rk (st_heap st1) /\ frame (rk l) (st_heap st) (st_heap st1) /\
      st_heap st1 !! l = st_heap st !! l /\ Forall scalar_id entries
  | Throw _ st1 =>
      ranked rk (st_heap st1) /\ frame (rk l) (st_heap st) (st_heap st1) /\
      st_heap st1 !! l = st_heap st !! l
  | Diverge => D
  end.
Proof.
  intros Huoc Hst Hv Ha. pose proof (ranked_field _ _ _ _ Hst Hv) as Hn.
  assert (is_Some (st_heap st !! l)) as [c Hl].
  { unfold get_own in Hv. destruct (st_heap st !! l); [eauto|done]. }
  assert (safe (rk a) (Forall scalar_id)
            (promise_all (map (fun relData => uoc user (target rel) relData) es)))
    as Hall.
  { apply safe_promise_all, Forall_map, Forall_forall. intros v Hin.
    destruct (ranked_elems _ _ _ _ _ Hst Ha Hin) as [Hpos Hlt].
    eapply safe_mono; [|apply Huoc]; lia. }
  specialize (Hall st Hst).
  destruct (promise_all _ st) as [entries st1|e st1|]; [| |done].
  - destruct Hall as (Hst1 & Hfr & He). split; [done|].
    split; [eapply frame_mono; [|exact Hfr]; lia|]. split; [|done].
    destruct Hfr as (_ & Hup & _). rewrite Hl. apply Hup; [lia|done].
  - destruct Hall as (Hst1 & Hfr). split; [done|].
    split; [eapply frame_mono; [|exact Hfr]; lia|].
    destruct Hfr as (_ & Hup & _). rewrite Hl. apply Hup; [lia|done].
Qed.

(** One relation attribute of a record: the field ends up resolved and
    the other fields of the record are as they were. *)
Lemma relation_resolved uoc rel l st :
  uoc_safe uoc (rk l) ->
  ranked rk (st_heap st) ->
  match updateOrCreateRelation_with uoc user rel (VRef l) st with
  | Ok _ st' =>
      ranked rk (st_heap st') /\ frame (rk l) (st_heap st) (st_heap st') /\
      (forall k, k <> name rel ->
         get_own (st_heap st') l k = get_own (st_heap st) l k) /\
      resolved (st_heap st') (get_own (st_heap st') l (name rel))
  | Throw _ st' =>
      ranked rk (st_heap st') /\ frame (rk l) (st_heap st) (st_heap st') /\
      (forall k, get_own (st_heap st') l k = get_own (st_heap st) l k)
  | Diverge => D
  end.
Proof.
  intros Huoc Hst.
  destruct (is_audit (name rel)) eqn:Haudit.
  { unfold updateOrCreateRelation_with. rewrite Haudit.
    destruct user as [pu|] eqn:Hu; simpl; unfold bind, throw, ret; simpl.
    2:{ split; [done|]. split; [apply frame_refl|done]. }
    set (uid := default VUndef (pu !! "id")).
    assert (is_ref uid = false) as Huid by exact user_ok.
    split; [by apply ranked_set_scalar|]. split; [by apply frame_alter|].
    split; [intros k Hk; by apply get_own_alter_ne_key|].
    destruct (st_heap st !! l) as [c|] eqn:Hl.
    - erewrite get_own_alter_eq by done. by destruct uid.
    - unfold get_own. rewrite list_lookup_alter_eq, Hl. done. }
  rewrite relation_unfold by done. cbv zeta.
  destruct (get_own (st_heap st) l (name rel)) as [| |b|z|s|n] eqn:Hv;
    cbn [truthy typeof_object isArray andb]; rewrite ?andb_false_r;
    try (split; [done|]; split; [apply frame_refl|]; split; [done|];
         by rewrite Hv).
  assert (is_Some (st_heap st !! l)) as [c Hl].
  { unfold get_own in Hv. destruct (st_heap st !! l); [eauto|done]. }
  assert (forall (st1 : state DB) x,
            ranked rk (st_heap st1) ->
            frame (rk l) (st_heap st) (st_heap st1) ->
            st_heap st1 !! l = st_heap st !! l ->
            is_ref x = false ->
            let h' := alter (cell_set (name rel) x) l (st_heap st1) in
            ranked rk h' /\ frame (rk l) (st_heap st) h' /\
            (forall k, k <> name rel -> get_own h' l k = get_own (st_heap st) l k) /\
            resolved h' (get_own h' l (name rel))) as Hwrite.
  { intros st1 x Hst1 Hfr Hsame Hx. cbv zeta.
    split; [by apply ranked_set_scalar|].
    split; [eapply frame_trans; [exact Hfr|by apply frame_alter]|].
    split.
    - intros k Hk. rewrite get_own_alter_ne_key by done.
      unfold get_own. by rewrite Hsame.
    - erewrite get_own_alter_eq by (by rewrite Hsame). by destruct x. }
  assert (forall st1 : state DB,
            st_heap st1 !! l = st_heap st !! l ->
            forall k, get_own (st_heap st1) l k = get_own (st_heap st) l k)
    as Hkeep.
  { intros st1 Hsame k. unfold get_own. by rewrite Hsame. }
  destruct (st_heap st !! n) as [[p|es p]|] eqn:Hcell.
  - (* a nested record *)
    unfold bind. pose proof (safe_recursion uoc rel l n st Huoc Hst Hv) as Hrec.
    destruct (uoc _ _ _ st) as [e st1|e st1|]; [| |done].
    + destruct Hrec as (Hst1 & Hfr & Hsame & He). simpl.
      apply Hwrite; try done. by apply js_or_null_scalar.
    + destruct Hrec as (Hst1 & Hfr & Hsame). eauto.
  - (* an array of nested records *)
    unfold array_elems. rewrite Hcell.
    pose proof (safe_elements uoc rel l n es p st Huoc Hst Hv Hcell) as Hall.
    unfold bind at 1.
    destruct (promise_all _ st) as [entries st1|e st1|]; [| |done].
    2:{ destruct Hall as (Hst1 & Hfr & Hsame). eauto. }
    destruct Hall as (Hst1 & Hfr & Hsame & Hentries).
    unfold bind at 1.
    destruct (map_throw (fun e => entry_get e "id") entries) as [err|ids] eqn:Hids;
      simpl; [eauto|].
    pose proof (scalar_ids_of _ _ Hentries Hids) as Hscalar.
    assert (l < length (st_heap st1)) as Hlt.
    { apply lookup_lt_is_Some. rewrite Hsame. eauto. }
    assert (rk (length (st_heap st1)) = 1) as Hnew.
    { destruct Hst1 as [_ Hfree]. by apply Hfree. }
    assert (1 < rk l) as Hrk.
    { pose proof (ranked_field _ _ _ _ Hst Hv).
      destruct Hst as [Hcells _]. destruct (Hcells _ _ Hcell) as [Hpos _]. lia. }
    split.
    { apply ranked_set; [by apply ranked_new_array|]. intros _. simpl. lia. }
    split.
    { eapply frame_trans; [exact Hfr|].
      eapply frame_trans; [apply frame_app|by apply frame_alter]. }
    split.
    + intros k Hk. rewrite get_own_alter_ne_key by done.
      unfold get_own. rewrite lookup_app_l by done. by rewrite Hsame.
    + destruct (lookup_lt_is_Some_2 _ _ Hlt) as [c1 Hc1].
      erewrite get_own_alter_eq by (rewrite lookup_app_l by done; exact Hc1).
      simpl. exists ids, ∅. split; [|done].
      rewrite list_lookup_alter_ne by lia.
      rewrite lookup_app_r by lia. by rewrite Nat.sub_diag.
  - (* a reference to nothing: reconciled like an empty record *)
    unfold bind. pose proof (safe_recursion uoc rel l n st Huoc Hst Hv) as Hrec.
    destruct (uoc _ _ _ st) as [e st1|e st1|]; [| |done].
    + destruct Hrec as (Hst1 & Hfr & Hsame & He). simpl.
      apply Hwrite; try done. by apply js_or_null_scalar.
    + destruct Hrec as (Hst1 & Hfr & Hsame). eauto.
Qed.

Lemma safe_relation uoc rel data :
  uoc_safe uoc (vrank rk data) ->
  safe (vrank rk data) (fun _ => True)
    (updateOrCreateRelation_with uoc user rel data).
Proof.
  intros Huoc. destruct data as [| |b|z|s|l].
  6:{ intros st Hst. pose proof (relation_resolved uoc rel l st Huoc Hst) as H.
      destruct (updateOrCreateRelation_with _ _ _ _ st) as [x st'|e st'|];
        [| |done].
      - destruct H as (? & ? & _). done.
      - destruct H as (? & ? & _). done. }
  all: unfold updateOrCreateRelation_with;
    destruct (is_audit (name rel));
    [ destruct user; simpl; unfold bind, throw, ret; simpl
    | simpl; unfold bind, throw, ret, reads; simpl ];
    intros st Hst; simpl;
    (split; [exact Hst|]; first [apply frame_refl | split; [apply frame_refl|done]]).
Qed.

(** All relation attributes of a record. *)
Lemma relations_resolved uoc rels l st :
  uoc_safe uoc (rk l) ->
  ranked rk (st_heap st) ->
  match
    promise_all
      (map (fun rel => updateOrCreateRelation_with uoc user rel (VRef l)) rels) st
  with
  | Ok _ st' =>
      ranked rk (st_heap st') /\ frame (rk l) (st_heap st) (st_heap st') /\
      (forall k, k ∉ map name rels ->
         get_own (st_heap st') l k = get_own (st_heap st) l k) /\
      (forall rel, rel ∈ rels ->
         resolved (st_heap st') (get_own (st_heap st') l (name rel)))
  | Throw _ st' =>
      ranked rk (st_heap st') /\ frame (rk l) (st_heap st) (st_heap st') /\
      (forall k, k ∉ map name rels ->
         get_own (st_heap st') l k = get_own (st_heap st) l k)
  | Diverge => D
  end.
Proof.
  intros Huoc. revert st. induction rels as [|rel rels IH]; intros st Hst.
  { simpl. split; [done|]. split; [apply frame_refl|]. split; [done|].
    intros rel Hin. by apply elem_of_nil in Hin. }
  simpl. pose proof (relation_resolved uoc rel l st Huoc Hst) as Hrel.
  destruct (updateOrCreateRelation_with uoc user rel (VRef l) st)
    as [x st1|e st1|]; [| |done].
  - destruct Hrel as (Hst1 & Hfr1 & Hother & Hres). specialize (IH st1 Hst1).
    destruct (promise_all _ st1) as [xs st2|e st2|]; [| |done].
    + destruct IH as (Hst2 & Hfr2 & Hkeep & Hall).
      split; [done|]. split; [by eapply frame_trans|]. split.
      * intros k Hk. apply not_elem_of_cons in Hk as [Hk1 Hk2].
        rewrite Hkeep by done. by apply Hother.
      * intros rel' Hin. apply elem_of_cons in Hin as [->|Hin]; [|by apply Hall].
        destruct (decide (name rel ∈ map name rels)) as [Hdup|Hfresh].
        -- apply list_elem_of_fmap in Hdup as (rel0 & Heq & Hin0).
           rewrite Heq. by apply Hall.
        -- rewrite Hkeep by done. by eapply resolved_frame.
    + destruct IH as (Hst2 & Hfr2 & Hkeep).
      split; [done|]. split; [by eapply frame_trans|].
      intros k Hk. apply not_elem_of_cons in Hk as [Hk1 Hk2].
      rewrite Hkeep by done. by apply Hother.
  - destruct Hrel as (Hst1 & Hfr1 & Hsame). specialize (IH st1 Hst1).
    destruct (promise_all _ st1) as [xs st2|e2 st2|]; [| |done].
    + destruct IH as (Hst2 & Hfr2 & Hkeep & _).
      split; [done|]. split; [by eapply frame_trans|].
      intros k Hk. apply not_elem_of_cons in Hk as [Hk1 Hk2].
      rewrite Hkeep by done. apply Hsame.
    + destruct IH as (Hst2 & Hfr2 & Hkeep).
      split; [done|]. split; [by eapply frame_trans|].
      intros k Hk. apply not_elem_of_cons in Hk as [Hk1 Hk2].
      rewrite Hkeep by done. apply Hsame.
Qed.

Lemma safe_query_create m slug data : safe m scalar_id (query_create slug data).
Proof.
  intros st Hst. unfold query_create. destruct store_ok as [Hc _].
  destruct (db_create _ _ _ _) as [[err|e] db'] eqn:Hcall; simpl.
  - split; [done|apply frame_refl].
  - split; [done|]. split; [apply frame_refl|by eapply Hc].
Qed.

Lemma safe_query_update m slug w data : safe m scalar_id (query_update slug w data).
Proof.
  intros st Hst. unfold query_update. destruct store_ok as [_ Hu].
  destruct (db_update _ _ _ _ _) as [[err|e] db'] eqn:Hcall; simpl.
  - split; [done|apply frame_refl].
  - split; [done|]. split; [apply frame_refl|by eapply Hu].
Qed.

Lemma safe_get_prop m v k : safe m (fun _ => True) (get_prop v k).
Proof.
  intros st Hst. destruct v; simpl;
    (split; [exact Hst|]; first [apply frame_refl | split; [apply frame_refl|done]]).
Qed.

Lemma safe_upsert m slug data : safe m scalar_id (upsert slug data).
Proof.
  unfold upsert. eapply safe_bind; [apply safe_get_prop|]. intros id _.
  eapply (safe_bind _ (fun _ => True)).
  { destruct (truthy id); [|by apply safe_ret].
    eapply safe_bind; [apply safe_get_prop|]. intros; by apply safe_ret. }
  intros w _. destruct (negb _); [apply safe_query_create|].
  eapply safe_bind; [apply safe_query_update|]. intros e He.
  destruct (negb _); [apply safe_query_create|by apply safe_ret].
Qed.

(** [updateOrCreate] on a record without cycles: it ends when the fuel is
    above the rank of the record. *)
Lemma updateOrCreate_safe fuel slug data :
  D \/ vrank rk data < fuel ->
  safe (vrank rk data) scalar_id (updateOrCreate fuel user slug data).
Proof.
  revert slug data. induction fuel as [|n IH]; intros slug data Hfuel.
  { intros st Hst. simpl. destruct Hfuel; [done|lia]. }
  simpl. eapply safe_bind; [|intros; apply safe_upsert].
  apply safe_promise_all, Forall_map, Forall_forall. intros rel _.
  apply safe_relation. intros slug' v Hv. apply IH.
  destruct Hfuel; [by left|right; lia].
Qed.

Lemma updateOrCreate_uoc_safe n l :
  D \/ rk l < S n -> uoc_safe (updateOrCreate n) (rk l).
Proof.
  intros Hfuel slug v Hv. apply updateOrCreate_safe.
  destruct Hfuel; [by left|right; lia].
Qed.

(** *** Every relation field is written back *)







End Acyclic.

(** C2: once the relations of a record are resolved, [updateOrCreate]
    looks at the record's [id]: if it is truthy, the store is asked to
    update [{id}] first, and a create follows only if the update returned
    nothing; if it is absent or falsy, the create is issued at once, with
    no update.  The [id] is the one the record was passed with, when it
    has no cycle and [id] is not itself a relation attribute. *)
Theorem update_first_else_create n user slug l st x st1 :
  promise_all
    (map (fun rel => updateOrCreateRelation n user rel (VRef l))
         (getModelAttributes slug)) st = Ok x st1 ->
  let id := get_own (st_heap st1) l "id" in
  let h1 := st_heap st1 in
  let r := updateOrCreate (S n) user slug (VRef l) st in
  let upd := EvUpdate slug {["id" := id]} (VRef l) h1 in
  let cre := EvCreate slug (VRef l) h1 in
  (forall rk,
     store_scalar_ids -> scalar_id user -> ranked rk (st_heap st) ->
     "id" ∉ map name (getModelAttributes slug) ->
     id = get_own (st_heap st) l "id") /\
  if truthy id then
    match db_update slug {["id" := id]} (VRef l) h1 (st_db st1) with
    | (inr (Some e), db') =>
        r = Ok (Some e) (mkState h1 db' (st_log st1 ++ [upd]))
    | (inr None, db') =>
        r = query_create slug (VRef l) (mkState h1 db' (st_log st1 ++ [upd])) /\
        st_log <$> res_state r = Some (st_log st1 ++ [upd; cre])
    | (inl err, db') =>
        r = Throw err (mkState h1 db' (st_log st1 ++ [upd]))
    end
  else
    r = query_create slug (VRef l) st1 /\
    st_log <$> res_state r = Some (st_log st1 ++ [cre]).
Proof.
  intros Hrel. cbv zeta. split.
  { intros rk Hstore Huser Hst Hid.
    pose proof (relations_resolved rk user Huser True (updateOrCreate n)
                  (getModelAttributes slug) l st
                  (updateOrCreate_uoc_safe rk user Hstore Huser True n l
                     (or_introl I)) Hst) as Hall.
    unfold updateOrCreateRelation in Hrel. rewrite Hrel in Hall.
    destruct Hall as (_ & _ & Hkeep & _). by apply Hkeep. }
  assert (updateOrCreate (S n) user slug (VRef l) st = upsert slug (VRef l) st1)
    as ->.
  { by rewrite updateOrCreate_unfold, Hrel. }
  rewrite upsert_unfold. cbv zeta.
  destruct (truthy (get_own (st_heap st1) l "id")).
  - unfold bind, query_update.
    destruct (db_update _ _ _ _ _) as [[err|[e|]] db']; simpl; try reflexivity.
    split; [reflexivity|]. rewrite query_create_log. simpl.
    by rewrite <- app_assoc.
  - split; [reflexivity|]. apply query_create_log.
Qed.


(** ** The batch *)

Lemma process_cons fuel user slug d rest st :
  process fuel user slug (d :: rest) st =
  match updateOrCreate fuel user slug d st with
  | Ok _ st1 => prepend (fulfilled d) (process fuel user slug rest st1)
  | Throw e st1 => prepend (rejected e d) (process fuel user slug rest st1)
  | Diverge => Diverge
  end.
Proof.
  simpl. unfold bind, catchError, ret, prepend.
  destruct (updateOrCreate fuel user slug d st) as [x st1|e st1|]; [| |done];
    by destruct (process fuel user slug rest st1).
Qed.

(** No error leaves the loop. *)
Lemma process_no_throw fuel user slug data st e st' :
  process fuel user slug data st <> Throw e st'.
Proof.
  revert st. induction data as [|d data IH]; intros st; [done|].
  rewrite process_cons.
  destruct (updateOrCreate fuel user slug d st) as [x st1|e1 st1|]; [| |done].
  - specialize (IH st1). by destruct (process fuel user slug data st1).
  - specialize (IH st1). by destruct (process fuel user slug data st1).
Qed.

Lemma process_app fuel user slug pre post st ps1 st1 :
  process fuel user slug pre st = Ok ps1 st1 ->
  process fuel user slug (pre ++ post) st =
  match process fuel user slug post st1 with
  | Ok ps2 st2 => Ok (ps1 ++ ps2) st2
  | Throw e st2 => Throw e st2
  | Diverge => Diverge
  end.
Proof.
  revert st ps1. induction pre as [|d pre IH]; intros st ps1 Hpre.
  - inversion Hpre; subst. simpl. by destruct (process fuel user slug post st1).
  - rewrite <- app_comm_cons, process_cons. rewrite process_cons in Hpre.
    destruct (updateOrCreate fuel user slug d st) as [x sta|e sta|]; [| |done].
    + destruct (process fuel user slug pre sta) as [ps sta'|?|] eqn:Hrest;
        [|done|done].
      inversion Hpre; subst. rewrite (IH _ _ Hrest).
      by destruct (process fuel user slug post st1).
    + destruct (process fuel user slug pre sta) as [ps sta'|?|] eqn:Hrest;
        [|done|done].
      inversion Hpre; subst. rewrite (IH _ _ Hrest).
      by destruct (process fuel user slug post st1).
Qed.

(** With fuel above the rank of every record, the loop of [importData]
    ends with one result per record. *)
Lemma process_safe rk user fuel slug data st :
  store_scalar_ids -> scalar_id user ->
  Forall (fun d => vrank rk d < fuel) data ->
  ranked rk (st_heap st) ->
  exists processed st',
    process fuel user slug data st = Ok processed st' /\ ranked rk (st_heap st').
Proof.
  intros Hstore Huser Hdata. revert st.
  induction Hdata as [|d data Hd _ IH]; intros st Hst.
  - by exists [], st.
  - rewrite process_cons.
    pose proof (updateOrCreate_safe rk user Hstore Huser False fuel slug d
                  (or_intror Hd) st Hst) as Hrun.
    destruct (updateOrCreate fuel user slug d st) as [e st1|e st1|]; [| |done].
    + destruct Hrun as (Hst1 & _). destruct (IH st1 Hst1) as (ps & st' & Hps & Hst').
      rewrite Hps. by eexists _, _.
    + destruct Hrun as (Hst1 & _). destruct (IH st1 Hst1) as (ps & st' & Hps & Hst').
      rewrite Hps. by eexists _, _.
Qed.

Lemma process_collected fuel user slug data st ps st' :
  process fuel user slug data st = Ok ps st' <->
  collected fuel user slug data st ps st'.
Proof.
  split.
  - revert st ps. induction data as [|d data IH]; intros st ps Hrun.
    + inversion Hrun; subst. constructor.
    + rewrite process_cons in Hrun.
      destruct (updateOrCreate fuel user slug d st) as [x st1|e st1|] eqn:Hd;
        [| |done];
        destruct (process fuel user slug data st1) as [ps1 st2|?|] eqn:Hrest;
        try done; inversion Hrun; subst.
      * eapply collected_ok; eauto.
      * eapply collected_failed; eauto.
  - induction 1 as [|d data st x st1 ps st2 Hd _ IH|d data st e st1 ps st2 Hd _ IH].
    + done.
    + by rewrite process_cons, Hd, IH.
    + by rewrite process_cons, Hd, IH.
Qed.

Lemma failures_of_app ps1 ps2 :
  failures_of (ps1 ++ ps2) = failures_of ps1 ++ failures_of ps2.
Proof. unfold failures_of. by rewrite filter_app, map_app. Qed.

Lemma failures_of_fulfilled d ps : failures_of (fulfilled d :: ps) = failures_of ps.
Proof. unfold failures_of. by rewrite filter_cons_False by (simpl; auto). Qed.

Lemma failures_of_rejected e d ps :
  failures_of (rejected e d :: ps) = mkFailure (Some e) d :: failures_of ps.
Proof. unfold failures_of. by rewrite filter_cons_True by done. Qed.

Lemma importData_unfold fuel dataRaw slug fmt user st data st0 :
  parseInputData fmt dataRaw slug st = Ok data st0 ->
  importData fuel dataRaw slug fmt user st =
  match process fuel user slug data st0 with
  | Ok processed st' => Ok (mkRes (failures_of processed)) st'
  | Throw e st' => Throw e st'
  | Diverge => Diverge
  end.
Proof. intros Hparse. unfold importData, bind. by rewrite Hparse. Qed.

Lemma collected_length fuel user slug data st ps st' :
  collected fuel user slug data st ps st' -> length ps = length data.
Proof. induction 1; simpl; lia. Qed.

Lemma failures_of_sublist fuel user slug data st ps st' :
  collected fuel user slug data st ps st' ->
  length (failures_of ps) <= length data /\
  map f_data (failures_of ps) `sublist_of` data.
Proof.
  induction 1 as [|d data st x st1 ps st2 Hd _ IH|d data st e st1 ps st2 Hd _ IH].
  - split; [done|]. constructor.
  - rewrite failures_of_fulfilled. destruct IH as [Hlen Hsub].
    split; [simpl; lia|]. by apply sublist_cons.
  - rewrite failures_of_rejected. destruct IH as [Hlen Hsub].
    split; [simpl; lia|]. simpl. by apply sublist_skip.
Qed.

(** C9: the report has at most as many failures as there are records, and
    the records of its failures, in the order of the report, are records
    of the input in the order of the input: the loop collects one result
    per record, in order, and the failures are the results of the records
    whose reconciliation raised, in that order. *)
Theorem failures_bounded_and_ordered fuel dataRaw slug fmt user st data st0 rep st' :
  parseInputData fmt dataRaw slug st = Ok data st0 ->
  importData fuel dataRaw slug fmt user st = Ok rep st' ->
  length (failures rep) <= length data /\
  map f_data (failures rep) `sublist_of` data /\
  exists processed,
    collected fuel user slug data st0 processed st' /\
    length processed = length data /\
    failures rep =
      map (fun f => mkFailure (cr_error f) (default VUndef (args f !! 0%nat)))
          (filter (fun p => success p = false) processed).
Proof.
  intros Hparse Hrun. rewrite (importData_unfold _ _ _ _ _ _ _ _ Hparse) in Hrun.
  destruct (process fuel user slug data st0) as [ps st1|?|] eqn:Hps; [|done|done].
  inversion Hrun; subst. simpl. apply process_collected in Hps.
  destruct (failures_of_sublist _ _ _ _ _ _ _ Hps) as [Hlen Hsub].
  split; [done|]. split; [done|]. exists ps. split; [done|].
  split; [by eapply collected_length|].
  unfold failures_of. f_equal. apply list_filter_iff.
  intros p. by destruct (success p).
Qed.



(** C3: an error raised while a record is reconciled is caught by the
    loop of [importData] and becomes a failure of the report, between the
    failures of the records before and after it; the records after it are
    reconciled all the same, from the state the failed one left, and no
    error of theirs leaves the loop either; and [importData] returns the
    report: every reconciliation ends when the records have no cycles and
    the fuel is above their rank. *)
Theorem error_caught_at_batch_boundary
    fuel dataRaw slug fmt user st pre d post st0 ps1 st1 e st2 :
  parseInputData fmt dataRaw slug st = Ok (pre ++ d :: post) st0 ->
  process fuel user slug pre st0 = Ok ps1 st1 ->
  updateOrCreate fuel user slug d st1 = Throw e st2 ->
  importData fuel dataRaw slug fmt user st =
    match process fuel user slug post st2 with
    | Ok ps2 st3 =>
        Ok (mkRes (failures_of ps1 ++ mkFailure (Some e) d :: failures_of ps2)) st3
    | Throw e' st3 => Throw e' st3
    | Diverge => Diverge
    end /\
  (forall e' st3, process fuel user slug post st2 <> Throw e' st3) /\
  (forall rk,
     store_scalar_ids -> scalar_id user ->
     ranked rk (st_heap st0) ->
     Forall (fun v => vrank rk v < fuel) (pre ++ d :: post) ->
     exists ps2 st3,
       process fuel user slug post st2 = Ok ps2 st3 /\
       length ps2 = length post /\
       importData fuel dataRaw slug fmt user st =
         Ok (mkRes (failures_of ps1 ++ mkFailure (Some e) d :: failures_of ps2))
            st3).
Proof.
  intros Hparse Hpre Hd.
  assert (importData fuel dataRaw slug fmt user st =
          match process fuel user slug post st2 with
          | Ok ps2 st3 =>
              Ok (mkRes (failures_of ps1 ++
                         mkFailure (Some e) d :: failures_of ps2)) st3
          | Throw e' st3 => Throw e' st3
          | Diverge => Diverge
          end) as Hrun.
  { rewrite (importData_unfold _ _ _ _ _ _ _ _ Hparse).
    rewrite (process_app _ _ _ _ _ _ _ _ Hpre), process_cons, Hd.
    destruct (process fuel user slug post st2) as [ps2 st3|e' st3|]; simpl;
      [|done|done].
    by rewrite failures_of_app, failures_of_rejected. }
  split; [exact Hrun|]. split; [intros e' st3; apply process_no_throw|].
  intros rk Hstore Huser Hranked Hfuel.
  apply Forall_app in Hfuel as [Hfpre Hfuel].
  apply Forall_cons in Hfuel as [Hfd Hfpost].
  destruct (process_safe rk user fuel slug pre st0 Hstore Huser Hfpre Hranked)
    as (ps1' & st1' & Hpre' & Hst1).
  rewrite Hpre in Hpre'. inversion Hpre'; subst ps1' st1'.
  pose proof (updateOrCreate_safe rk user Hstore Huser False fuel slug d
                (or_intror Hfd) st1 Hst1) as Hst2.
  rewrite Hd in Hst2. destruct Hst2 as [Hst2 _].
  destruct (process_safe rk user fuel slug post st2 Hstore Huser Hfpost Hst2)
    as (ps2 & st3 & Hpost & _).
  exists ps2, st3. split; [done|]. split.
  - apply process_collected in Hpost. by eapply collected_length.
  - by rewrite Hrun, Hpost.
Qed.

(** ** Further properties of [importData] *)

(** X1: [importData] raises exactly when the parser does, with the
    parser's error and in the state the parser left: an error of a
    reconciliation never leaves [importData]. *)
Theorem importData_raises_only_parse_errors fuel dataRaw slug fmt user st e st' :
  importData fuel dataRaw slug fmt user st = Throw e st' <->
  parseInputData fmt dataRaw slug st = Throw e st'.
Proof.
  unfold importData. unfold bind at 1.
  destruct (parseInputData fmt dataRaw slug st) as [data st0|e0 st0|] eqn:Hparse.
  - split; [|done]. unfold bind.
    pose proof (process_no_throw fuel user slug data st0) as Hno.
    destruct (process fuel user slug data st0) as [ps st1|e1 st1|]; [done| |done].
    by destruct (Hno e1 st1).
  - split; intros [= -> ->]; reflexivity.
  - split; intros [=].
Qed.

Lemma collected_count fuel user slug data st ps st' :
  collected fuel user slug data st ps st' ->
  length (failures_of ps) + length (filter (fun p => success p = true) ps)
    = length data /\
  (failures_of ps = [] <-> Forall (fun p => success p = true) ps).
Proof.
  induction 1 as [|d data st x st1 ps st2 Hd _ IH|d data st e st1 ps st2 Hd _ IH].
  - split; [done|]. split; [constructor|done].
  - rewrite failures_of_fulfilled. destruct IH as [Hlen Hiff].
    rewrite filter_cons_True by done. split; [simpl; lia|].
    rewrite Forall_cons. unfold fulfilled at 1. simpl. tauto.
  - rewrite failures_of_rejected. destruct IH as [Hlen Hiff].
    rewrite filter_cons_False by done. split; [simpl; lia|].
    split; [done|]. intros Hall. apply Forall_cons in Hall as [Hs _]. done.
Qed.

(** X2: the records that are not in the report are the ones whose
    reconciliation returned: failures and successes add up to the number
    of records, and the report is empty exactly when every record was
    reconciled; for an empty batch it is empty and nothing is done. *)
Theorem failures_and_successes fuel dataRaw slug fmt user st data st0 rep st' :
  parseInputData fmt dataRaw slug st = Ok data st0 ->
  importData fuel dataRaw slug fmt user st = Ok rep st' ->
  exists processed,
    collected fuel user slug data st0 processed st' /\
    length (failures rep) + length (filter (fun p => success p = true) processed)
      = length data /\
    (failures rep = [] <-> Forall (fun p => success p = true) processed) /\
    (data = [] -> failures rep = [] /\ st' = st0).
Proof.
  intros Hparse Hrun. rewrite (importData_unfold _ _ _ _ _ _ _ _ Hparse) in Hrun.
  destruct (process fuel user slug data st0) as [ps st1|?|] eqn:Hps; [|done|done].
  inversion Hrun; subst. simpl. exists ps.
  pose proof Hps as Hcol. apply process_collected in Hcol.
  destruct (collected_count _ _ _ _ _ _ _ Hcol) as [Hlen Hiff].
  split; [done|]. split; [done|]. split; [done|].
  intros ->. simpl in Hps. by inversion Hps.
Qed.

(** ** Further properties of [updateOrCreate] *)

Lemma promise_all_quiet {A} (ps : list (M A)) (x : A) st :
  Forall (fun p => p st = Ok x st) ps ->
  promise_all ps st = Ok (replicate (length ps) x) st.
Proof.
  induction 1 as [|p ps Hp _ IH]; [done|]. simpl. by rewrite Hp, IH.
Qed.

Lemma promise_all_rejected {A} (ps : list (M A)) e st :
  ps <> [] ->
  Forall (fun p => p st = Throw e st) ps ->
  promise_all ps st = Throw e st.
Proof.
  intros Hne Hall. induction Hall as [|p ps Hp Hps IH]; [done|].
  simpl. rewrite Hp. destruct ps as [|q ps]; [done|].
  by rewrite IH.
Qed.

(** On [null] and [undefined] every property access raises. *)
Lemma relation_on_nothing uoc user rel data st :
  data = VNull \/ data = VUndef ->
  updateOrCreateRelation_with uoc user rel data st = Throw TypeError st.
Proof.
  intros Hdata. unfold updateOrCreateRelation_with.
  destruct (is_audit (name rel)).
  - destruct user as [p|]; [|done]. by destruct Hdata as [-> | ->].
  - by destruct Hdata as [-> | ->].
Qed.

(** X3: a record that is [null] or [undefined] (a [null] among the
    elements of a relation, say) makes [updateOrCreate] raise a
    [TypeError], whatever the model: no call reaches the store and the
    state is as it was. *)
Theorem nothing_to_reconcile_raises n user slug data st :
  data = VNull \/ data = VUndef ->
  updateOrCreate (S n) user slug data st = Throw TypeError st.
Proof.
  intros Hdata. rewrite updateOrCreate_unfold.
  destruct (getModelAttributes slug) as [|rel rels] eqn:Hrels.
  - simpl. unfold upsert, bind. by destruct Hdata as [-> | ->].
  - rewrite (promise_all_rejected _ TypeError); [done|done|].
    apply Forall_map, Forall_forall. intros r _.
    by apply relation_on_nothing.
Qed.

(** On a boolean, a number or a string a relation attribute reads
    [undefined] and an assignment is dropped. *)
Lemma relation_on_primitive uoc user rel data st :
  is_prim data = true ->
  is_Some user \/ is_audit (name rel) = false ->
  updateOrCreateRelation_with uoc user rel data st = Ok tt st.
Proof.
  intros Hdata Huser. unfold updateOrCreateRelation_with.
  destruct (is_audit (name rel)).
  - destruct Huser as [[p ->]|]; [|done]. by destruct data.
  - by destruct data.
Qed.

(** X4: a record that is a boolean, a number or a string (an identifier
    among the elements of a relation, say) is never looked up:
    [updateOrCreate] hands it to [create] as the payload, without any
    update, and changes nothing else. *)
Theorem primitive_record_is_created n user slug data st :
  is_prim data = true ->
  is_Some user \/
    Forall (fun rel => is_audit (name rel) = false) (getModelAttributes slug) ->
  updateOrCreate (S n) user slug data st = query_create slug data st.
Proof.
  intros Hdata Huser. rewrite updateOrCreate_unfold.
  rewrite (promise_all_quiet _ tt).
  - unfold upsert, bind. by destruct data.
  - apply Forall_map, Forall_forall. intros rel Hin.
    apply relation_on_primitive; [done|].
    destruct Huser as [Hu|Hall]; [by left|right].
    rewrite Forall_forall in Hall. by apply Hall.
Qed.

(** X8: without an acting user ([user] is [null] or [undefined]), no
    record of a model that has a [createdBy] or [updatedBy] relation is
    reconciled: [updateOrCreate] never returns an entry, and every record
    of a batch is reported as a failure. *)
Theorem audit_relation_needs_user fuel dataRaw slug fmt rel :
  rel ∈ getModelAttributes slug ->
  is_audit (name rel) = true ->
  (forall data st e st', updateOrCreate fuel None slug data st <> Ok e st') /\
  (forall st data st0 rep st',
     parseInputData fmt dataRaw slug st = Ok data st0 ->
     importData fuel dataRaw slug fmt None st = Ok rep st' ->
     length (failures rep) = length data).
Proof.
  intros Hin Haudit.
  assert (forall data st e st', updateOrCreate fuel None slug data st <> Ok e st')
    as Hnever.
  { intros data st e st'. destruct fuel as [|n]; [done|].
    rewrite updateOrCreate_unfold.
    destruct (promise_all _ st) as [xs st1|e1 st1|] eqn:Hall; [|done|done].
    apply promise_all_Ok in Hall as [_ Hpos].
    apply list_elem_of_lookup in Hin as [i Hi].
    destruct (Hpos _ _ Hi) as (sti & r & sti' & Hrun & _).
    unfold updateOrCreateRelation, updateOrCreateRelation_with in Hrun.
    by rewrite Haudit in Hrun. }
  split; [exact Hnever|].
  intros st data st0 rep st' Hparse Hrun.
  rewrite (importData_unfold _ _ _ _ _ _ _ _ Hparse) in Hrun.
  destruct (process fuel None slug data st0) as [ps st1|?|] eqn:Hps; [|done|done].
  inversion Hrun; subst. simpl. apply process_collected in Hps.
  clear -Hps Hnever.
  induction Hps as [|d data st0 x st1 ps st2 Hd _ IH|d data st0 e st1 ps st2 Hd _ IH].
  - done.
  - by destruct (Hnever _ _ _ _ Hd).
  - rewrite failures_of_rejected. simpl. by rewrite IH.
Qed.

(** *** The calls that reach the store *)

Lemma call_ok_mono before before' ev :
  before ⊆ before' -> call_ok before ev -> call_ok before' ev.
Proof.
  intros Hsub. destruct ev as [sl d h|sl w d h]; simpl; [|done].
  intros [Hfalsy|(w & h' & Hin)]; [by left|right]. exists w, h'. by apply Hsub.
Qed.

Lemma calls_ok_nil : calls_ok [].
Proof. intros i ev Hi. by rewrite lookup_nil in Hi. Qed.

Lemma calls_ok_app l1 l2 : calls_ok l1 -> calls_ok l2 -> calls_ok (l1 ++ l2).
Proof.
  intros H1 H2 i ev Hi. apply lookup_app_Some in Hi as [Hi|[Hlen Hi]].
  - rewrite take_app_le by (apply lookup_lt_Some in Hi; lia). by apply H1.
  - eapply call_ok_mono; [|exact (H2 _ _ Hi)].
    rewrite take_app_ge by done.
    intros x Hx. apply elem_of_app. by right.
Qed.

Lemma calls_ok_create sl d h :
  truthy (prop_of h d "id") = false -> calls_ok [EvCreate sl d h].
Proof.
  intros Hfalsy [|i] ev Hi; simpl in Hi; [|by rewrite lookup_nil in Hi].
  inversion Hi; subst. by left.
Qed.

Lemma calls_ok_update sl d h :
  truthy (prop_of h d "id") = true ->
  calls_ok [EvUpdate sl {["id" := prop_of h d "id"]} d h].
Proof.
  intros Htruthy [|i] ev Hi; simpl in Hi; [|by rewrite lookup_nil in Hi].
  inversion Hi; subst. done.
Qed.

Lemma calls_ok_update_create sl d h :
  truthy (prop_of h d "id") = true ->
  calls_ok [EvUpdate sl {["id" := prop_of h d "id"]} d h; EvCreate sl d h].
Proof.
  intros Htruthy [|[|i]] ev Hi; simpl in Hi.
  - inversion Hi; subst. done.
  - inversion Hi; subst. right. eexists _, _. simpl. by left.
  - by rewrite lookup_nil in Hi.
Qed.

Lemma logs_ok_quiet {A} (m : M A) :
  (forall st, match m st with
              | Ok _ st' | Throw _ st' => st_log st' = st_log st
              | Diverge => True
              end) ->
  logs_ok m.
Proof.
  intros Hm st. specialize (Hm st).
  destruct (m st) as [a st'|e st'|]; [| |done];
    (exists []; split; [by rewrite app_nil_r|apply calls_ok_nil]).
Qed.

Lemma logs_ok_ret {A} (a : A) : logs_ok (ret a).
Proof. by apply logs_ok_quiet. Qed.

Lemma logs_ok_throw {A} e : logs_ok (throw (A:=A) e).
Proof. by apply logs_ok_quiet. Qed.

Lemma logs_ok_bind {A B} (m : M A) (k : A -> M B) :
  logs_ok m -> (forall a, logs_ok (k a)) -> logs_ok (bind m k).
Proof.
  intros Hm Hk st. unfold bind. specialize (Hm st).
  destruct (m st) as [a st1|e st1|]; [|done|done].
  destruct Hm as (new1 & Hlog1 & Hok1). specialize (Hk a st1).
  destruct (k a st1) as [b st2|e st2|]; [| |done];
    destruct Hk as (new2 & Hlog2 & Hok2);
    (exists (new1 ++ new2); split;
      [by rewrite Hlog2, Hlog1, app_assoc|by apply calls_ok_app]).
Qed.

Lemma logs_ok_promise_all {A} (ps : list (M A)) :
  Forall logs_ok ps -> logs_ok (promise_all ps).
Proof.
  induction 1 as [|p ps Hp _ IH]; [apply logs_ok_ret|].
  intros st. simpl. specialize (Hp st).
  destruct (p st) as [a st1|e st1|]; [| |done];
    destruct Hp as (new1 & Hlog1 & Hok1); specialize (IH st1);
    (destruct (promise_all ps st1) as [rest st2|e2 st2|]; [| |done]);
    destruct IH as (new2 & Hlog2 & Hok2);
    (exists (new1 ++ new2); split;
      [by rewrite Hlog2, Hlog1, app_assoc|by apply calls_ok_app]).
Qed.

Lemma logs_ok_lift_sum {A} (r : error + A) : logs_ok (lift_sum r).
Proof. destruct r; [apply logs_ok_throw|apply logs_ok_ret]. Qed.

Lemma logs_ok_reads {A} (f : heap -> A) : logs_ok (reads f).
Proof. by apply logs_ok_quiet. Qed.

Lemma logs_ok_get_prop v k : logs_ok (get_prop v k).
Proof. apply logs_ok_quiet. intros st. by destruct v. Qed.

Lemma logs_ok_set_prop v k x : logs_ok (set_prop v k x).
Proof. apply logs_ok_quiet. intros st. by destruct v. Qed.

Lemma logs_ok_new_array es : logs_ok (new_array es).
Proof. by apply logs_ok_quiet. Qed.

Lemma logs_ok_relation uoc user rel data :
  (forall u s v, logs_ok (uoc u s v)) ->
  logs_ok (updateOrCreateRelation_with uoc user rel data).
Proof.
  intros Huoc. unfold updateOrCreateRelation_with.
  destruct (is_audit (name rel)).
  { apply logs_ok_bind; [apply logs_ok_lift_sum|]. intros; apply logs_ok_set_prop. }
  apply logs_ok_bind; [apply logs_ok_get_prop|]. intros v.
  apply logs_ok_bind; [apply logs_ok_reads|]. intros arr.
  destruct (truthy v && arr).
  - apply logs_ok_bind; [apply logs_ok_get_prop|]. intros v1.
    apply logs_ok_bind; [apply logs_ok_reads|]. intros relDatas.
    apply logs_ok_bind.
    { apply logs_ok_promise_all, Forall_map, Forall_forall. intros; apply Huoc. }
    intros entries. apply logs_ok_bind; [apply logs_ok_lift_sum|]. intros ids.
    apply logs_ok_bind; [apply logs_ok_new_array|]. intros; apply logs_ok_set_prop.
  - apply logs_ok_bind; [apply logs_ok_get_prop|]. intros v2.
    destruct (truthy v2 && typeof_object v2); [|apply logs_ok_ret].
    apply logs_ok_bind; [apply logs_ok_get_prop|]. intros v3.
    apply logs_ok_bind; [apply Huoc|]. intros; apply logs_ok_set_prop.
Qed.

(** [upsert] on any value whose [id] can be read. *)
Lemma upsert_cases slug data st :
  data <> VNull -> data <> VUndef ->
  upsert slug data st =
  let id := prop_of (st_heap st) data "id" in
  if truthy id then
    (let* e := query_update slug {["id" := id]} data in
     if negb (bool_decide (is_Some e)) then query_create slug data
     else ret e) st
  else query_create slug data st.
Proof.
  intros Hnull Hundef.
  assert (get_prop data "id" st = Ok (prop_of (st_heap st) data "id") st) as Hid
    by (by destruct data).
  unfold upsert. unfold bind at 1. rewrite Hid. cbv zeta.
  unfold bind at 1.
  destruct (truthy (prop_of (st_heap st) data "id")) eqn:Ht.
  - unfold bind at 1. rewrite Hid. unfold ret.
    unfold ObjectBuilder.get, ObjectBuilder.extend, ObjectBuilder.new.
    rewrite (right_id_L ∅ (∪)). rewrite lookup_singleton_eq. simpl.
    by rewrite Ht.
  - unfold ret. unfold ObjectBuilder.get, ObjectBuilder.new.
    by rewrite lookup_empty.
Qed.

Lemma logs_ok_upsert slug data : logs_ok (upsert slug data).
Proof.
  intros st.
  destruct (decide (data = VNull)) as [->|Hnull].
  { exists []. split; [by rewrite app_nil_r|apply calls_ok_nil]. }
  destruct (decide (data = VUndef)) as [->|Hundef].
  { exists []. split; [by rewrite app_nil_r|apply calls_ok_nil]. }
  rewrite upsert_cases by done. cbv zeta.
  destruct (truthy (prop_of (st_heap st) data "id")) eqn:Ht.
  - unfold bind, query_update.
    destruct (db_update _ _ _ _ _) as [[err|[e|]] db']; simpl.
    + eexists. split; [reflexivity|]. by apply calls_ok_update.
    + eexists. split; [reflexivity|]. by apply calls_ok_update.
    + unfold query_create. simpl.
      destruct (db_create _ _ _ _) as [[err|e] db'']; simpl;
        (eexists; split; [by rewrite <- app_assoc|]);
        by apply calls_ok_update_create.
  - unfold query_create.
    destruct (db_create _ _ _ _) as [[err|e] db']; simpl;
      (eexists; split; [reflexivity|]); by apply calls_ok_create.
Qed.

(** X5: of the calls that [updateOrCreate] makes to the store, for the
    record and for all the records nested in it, every update is on
    [{id}], the truthy [id] its payload has at that moment, and every
    create is of a payload whose [id] is falsy at that moment or comes
    after an update for the same model and payload (the update has been
    tried, and returned nothing).  So no payload that has an [id] is
    created without the update having been tried on it before, and no
    update is issued without an [id].  The log is only appended to. *)
Theorem store_calls_well_formed fuel user slug data st :
  match updateOrCreate fuel user slug data st with
  | Ok _ st' | Throw _ st' =>
      exists new, st_log st' = st_log st ++ new /\ calls_ok new
  | Diverge => True
  end.
Proof.
  revert user slug data st.
  assert (forall user slug data, logs_ok (updateOrCreate fuel user slug data)) as H.
  { induction fuel as [|n IH]; intros user slug data.
    - intros st. exact I.
    - simpl. apply logs_ok_bind; [|intros; apply logs_ok_upsert].
      apply logs_ok_promise_all, Forall_map, Forall_forall. intros rel _.
      by apply logs_ok_relation. }
  intros user slug data st. apply H.
Qed.

(** *** Failures inside a relation *)

Lemma map_throw_missing (entries : list entry) :
  None ∈ entries ->
  map_throw (fun e => entry_get e "id") entries = inl TypeError.
Proof.
  induction entries as [|e entries IH]; intros Hin.
  - by apply elem_of_nil in Hin.
  - simpl. destruct e as [p|]; [|done]. simpl.
    apply elem_of_cons in Hin as [Hin|Hin]; [done|]. by rewrite IH.
Qed.

(** X9: in a many-valued relation, when one of the elements is reconciled
    to no record (the store returned nothing for it), reading the
    identifiers raises a [TypeError] after all the elements were
    reconciled, and the field is not replaced; the single-valued case
    stores [null] instead. *)
Theorem many_relation_missing_entry fuel user rel l a es props st entries st1 :
  is_audit (name rel) = false ->
  get_own (st_heap st) l (name rel) = VRef a ->
  st_heap st !! a = Some (CArr es props) ->
  promise_all
    (map (fun relData => updateOrCreate fuel user (target rel) relData) es) st
    = Ok entries st1 ->
  None ∈ entries ->
  updateOrCreateRelation fuel user rel (VRef l) st = Throw TypeError st1.
Proof.
  intros Haudit Hv Ha Hall Hmissing.
  unfold updateOrCreateRelation. rewrite relation_unfold by done.
  rewrite Hv. cbv zeta. unfold isArray, array_elems. rewrite Ha. simpl andb.
  cbv iota. unfold bind at 1. rewrite Hall.
  by rewrite map_throw_missing.
Qed.

Lemma promise_all_first_rejected {A} (p : M A) ps st e st1 xs st2 :
  p st = Throw e st1 -> promise_all (p :: ps) st <> Ok xs st2.
Proof.
  intros Hp. simpl. rewrite Hp. by destruct (promise_all ps st1).
Qed.

(** X11: an error raised while the nested record of a single-valued
    relation is reconciled is the error [updateOrCreateRelation] raises,
    as it is (not wrapped) and in the state it was raised in: the field
    keeps the nested record.  The record that holds it is then not
    reconciled: [updateOrCreate] does not return an entry for it. *)
Theorem nested_error_surfaces n user slug rel rest l m st e st1 :
  getModelAttributes slug = rel :: rest ->
  is_audit (name rel) = false ->
  get_own (st_heap st) l (name rel) = VRef m ->
  isArray (st_heap st) (VRef m) = false ->
  updateOrCreate n user (target rel) (VRef m) st = Throw e st1 ->
  updateOrCreateRelation n user rel (VRef l) st = Throw e st1 /\
  forall x st2, updateOrCreate (S n) user slug (VRef l) st <> Ok x st2.
Proof.
  intros Hrels Haudit Hv Harr Hrec.
  assert (updateOrCreateRelation n user rel (VRef l) st = Throw e st1) as Hrel.
  { unfold updateOrCreateRelation. rewrite relation_unfold by done.
    rewrite Hv. cbv zeta. rewrite Harr. simpl andb. cbv iota.
    unfold bind. by rewrite Hrec. }
  split; [exact Hrel|]. intros x st2.
  rewrite updateOrCreate_unfold, Hrels. rewrite map_cons.
  destruct (promise_all (_ :: _) st) as [xs st3|e' st3|] eqn:Hall; [|done|done].
  by destruct (promise_all_first_rejected _ _ _ _ _ _ _ Hrel Hall).
Qed.

(** *** Records without nested data *)

Lemma relation_skips uoc user rel l st :
  is_audit (name rel) = false ->
  is_ref (get_own (st_heap st) l (name rel)) = false ->
  updateOrCreateRelation_with uoc user rel (VRef l) st = Ok tt st.
Proof.
  intros Haudit Hv. rewrite relation_unfold by done. cbv zeta.
  destruct (get_own (st_heap st) l (name rel)) as [| |b|z|s|m];
    cbn [truthy typeof_object isArray andb]; rewrite ?andb_false_r; done.
Qed.

Lemma relation_sets_audit uoc p rel l st :
  is_audit (name rel) = true ->
  updateOrCreateRelation_with uoc (Some p) rel (VRef l) st =
  Ok tt (set_heap st (alter (cell_set (name rel) (default VUndef (p !! "id"))) l
                        (st_heap st))).
Proof.
  intros Haudit. unfold updateOrCreateRelation_with. by rewrite Haudit.
Qed.

Lemma flat_relations uoc user rels l st :
  is_Some user ->
  (forall rel, rel ∈ rels -> is_audit (name rel) = false ->
     is_ref (get_own (st_heap st) l (name rel)) = false) ->
  exists st1,
    promise_all
      (map (fun rel => updateOrCreateRelation_with uoc user rel (VRef l)) rels) st
      = Ok (replicate (length rels) tt) st1 /\
    st_db st1 = st_db st /\ st_log st1 = st_log st /\
    (forall k, is_audit k = false ->
       get_own (st_heap st1) l k = get_own (st_heap st) l k) /\
    (forall l', l' <> l -> st_heap st1 !! l' = st_heap st !! l').
Proof.
  intros [p ->]. revert st. induction rels as [|rel rels IH]; intros st Hflat.
  { exists st. by repeat split. }
  assert (exists st0,
    updateOrCreateRelation_with uoc (Some p) rel (VRef l) st = Ok tt st0 /\
    st_db st0 = st_db st /\ st_log st0 = st_log st /\
    (forall k, is_audit k = false ->
       get_own (st_heap st0) l k = get_own (st_heap st) l k) /\
    (forall l', l' <> l -> st_heap st0 !! l' = st_heap st !! l'))
    as (st0 & Hrel & Hdb0 & Hlog0 & Hkeep0 & Hother0).
  { destruct (is_audit (name rel)) eqn:Haudit.
    - eexists. split; [by apply relation_sets_audit|]. simpl.
      split; [done|]. split; [done|]. split.
      + intros k Hk. apply get_own_alter_ne_key. intros <-. congruence.
      + intros l' Hl'. by apply lookup_alter_ne_loc.
    - exists st. split; [|done]. apply relation_skips; [done|].
      apply Hflat; [by left|done]. }
  destruct (IH st0) as (st1 & Hall & Hdb1 & Hlog1 & Hkeep1 & Hother1).
  { intros rel' Hin Haudit'. rewrite Hkeep0 by done. apply Hflat; [by right|done]. }
  exists st1. simpl. rewrite Hrel, Hall.
  split; [done|]. split; [congruence|]. split; [congruence|]. split.
  - intros k Hk. rewrite Hkeep1 by done. by apply Hkeep0.
  - intros l' Hl'. rewrite Hother1 by done. by apply Hother0.
Qed.

(** X10: for a record none of whose relation fields holds a nested record
    or an array (they are absent, [null] or identifiers), and with an
    acting user, resolving the relations makes no call to the store and
    changes only the [createdBy] and [updatedBy] fields of the record:
    [updateOrCreate] amounts to the record's own write, one or two calls. *)
Theorem flat_record_own_write_only n user slug l st :
  is_Some user ->
  (forall rel, rel ∈ getModelAttributes slug -> is_audit (name rel) = false ->
     is_ref (get_own (st_heap st) l (name rel)) = false) ->
  exists st1,
    updateOrCreate (S n) user slug (VRef l) st = upsert slug (VRef l) st1 /\
    st_db st1 = st_db st /\ st_log st1 = st_log st /\
    (forall k, is_audit k = false ->
       get_own (st_heap st1) l k = get_own (st_heap st) l k) /\
    (forall l', l' <> l -> st_heap st1 !! l' = st_heap st !! l') /\
    exists own,
      st_log <$> res_state (upsert slug (VRef l) st1) = Some (st_log st ++ own) /\
      1 <= length own <= 2.
Proof.
  intros Huser Hflat.
  destruct (flat_relations (updateOrCreate n) user (getModelAttributes slug) l st
              Huser Hflat) as (st1 & Hall & Hdb & Hlog & Hkeep & Hother).
  exists st1. rewrite updateOrCreate_unfold.
  unfold updateOrCreateRelation. rewrite Hall.
  split; [done|]. split; [done|]. split; [done|]. split; [done|].
  split; [done|]. rewrite <- Hlog. rewrite upsert_unfold. cbv zeta.
  destruct (truthy (get_own (st_heap st1) l "id")).
  - unfold bind, query_update.
    destruct (db_update _ _ _ _ _) as [[err|[e|]] db']; simpl.
    + eexists. split; [reflexivity|]. simpl. lia.
    + eexists. split; [reflexivity|]. simpl. lia.
    + rewrite query_create_log. simpl. rewrite <- app_assoc.
      eexists. split; [reflexivity|]. simpl. lia.
  - rewrite query_create_log. eexists. split; [reflexivity|]. simpl. lia.
Qed.

(** *** What reconciliation leaves alone, and that it ends *)

Lemma upsert_heap slug data st :
  match upsert slug data st with
  | Ok _ st' | Throw _ st' => st_heap st' = st_heap st
  | Diverge => False
  end.
Proof.
  destruct (decide (data = VNull)) as [->|Hnull]; [done|].
  destruct (decide (data = VUndef)) as [->|Hundef]; [done|].
  rewrite upsert_cases by done. cbv zeta.
  destruct (truthy (prop_of (st_heap st) data "id")).
  - unfold bind, query_update.
    destruct (db_update _ _ _ _ _) as [[err|[e|]] db']; simpl; try done.
    unfold query_create. simpl. by destruct (db_create _ _ _ _) as [[err|e] db''].
  - unfold query_create. by destruct (db_create _ _ _ _) as [[err|e] db'].
Qed.

(** X6: reconciling a record without cycles writes to its relation
    fields only: every field that is not a relation attribute of the model
    (its [id], its scalar attributes) reads afterwards as before, whether
    [updateOrCreate] returns or raises, and the objects ranked above the
    record (a record that holds it) are as they were. *)
Theorem other_fields_kept rk n user slug l st k :
  store_scalar_ids -> scalar_id user ->
  ranked rk (st_heap st) ->
  k ∉ map name (getModelAttributes slug) ->
  match updateOrCreate (S n) user slug (VRef l) st with
  | Ok _ st' | Throw _ st' =>
      get_own (st_heap st') l k = get_own (st_heap st) l k /\
      (forall l' c, rk l < rk l' ->
         st_heap st !! l' = Some c -> st_heap st' !! l' = Some c)
  | Diverge => True
  end.
Proof.
  intros Hstore Huser Hst Hk.
  pose proof (relations_resolved rk user Huser True (updateOrCreate n)
                (getModelAttributes slug) l st
                (updateOrCreate_uoc_safe rk user Hstore Huser True n l
                   (or_introl I)) Hst) as Hall.
  rewrite updateOrCreate_unfold. unfold updateOrCreateRelation.
  destruct (promise_all _ st) as [xs st1|e st1|]; [| |done].
  - destruct Hall as (_ & (_ & Hup & _) & Hkeep & _).
    pose proof (upsert_heap slug (VRef l) st1) as Hheap.
    destruct (upsert slug (VRef l) st1) as [x st2|e st2|]; [| |done];
      rewrite Hheap; (split; [by apply Hkeep|exact Hup]).
  - destruct Hall as (_ & (_ & Hup & _) & Hkeep).
    split; [by apply Hkeep|exact Hup].
Qed.

Lemma refines_refl {A} (m : M A) : refines m m.
Proof. by intros st _. Qed.

Lemma refines_bind {A B} (m1 m2 : M A) (k1 k2 : A -> M B) :
  refines m1 m2 -> (forall a, refines (k1 a) (k2 a)) ->
  refines (bind m1 k1) (bind m2 k2).
Proof.
  intros Hm Hk st Hend. unfold bind in *. specialize (Hm st).
  destruct (m1 st) as [a st1|e st1|] eqn:H1; [| |done].
  - rewrite Hm by done. by apply Hk.
  - by rewrite Hm.
Qed.

Lemma refines_promise_all {A} (ps1 ps2 : list (M A)) :
  Forall2 refines ps1 ps2 -> refines (promise_all ps1) (promise_all ps2).
Proof.
  induction 1 as [|p1 p2 ps1 ps2 Hp _ IH]; [apply refines_refl|].
  intros st Hend. simpl in *. specialize (Hp st).
  destruct (p1 st) as [a st1|e st1|] eqn:H1; [| |done];
    rewrite Hp by done; specialize (IH st1);
    (destruct (promise_all ps1 st1) as [rest st2|e2 st2|] eqn:H2; [| |done]);
    by rewrite IH.
Qed.

Lemma refines_relation uoc1 uoc2 user rel data :
  (forall u s v, refines (uoc1 u s v) (uoc2 u s v)) ->
  refines (updateOrCreateRelation_with uoc1 user rel data)
          (updateOrCreateRelation_with uoc2 user rel data).
Proof.
  intros Huoc. unfold updateOrCreateRelation_with.
  destruct (is_audit (name rel)); [apply refines_refl|].
  apply refines_bind; [apply refines_refl|]. intros v.
  apply refines_bind; [apply refines_refl|]. intros arr.
  destruct (truthy v && arr).
  - apply refines_bind; [apply refines_refl|]. intros v1.
    apply refines_bind; [apply refines_refl|]. intros relDatas.
    apply refines_bind; [|intros; apply refines_refl].
    apply refines_promise_all, Forall2_fmap, Forall_Forall2_diag, Forall_forall.
    intros; apply Huoc.
  - apply refines_bind; [apply refines_refl|]. intros v2.
    destruct (truthy v2 && typeof_object v2); [|apply refines_refl].
    apply refines_bind; [apply refines_refl|]. intros v3.
    apply refines_bind; [apply Huoc|intros; apply refines_refl].
Qed.

(** Fuel is no part of the result: more of it changes nothing once
    [updateOrCreate] ends. *)
Lemma updateOrCreate_more_fuel n user slug data :
  refines (updateOrCreate n user slug data) (updateOrCreate (S n) user slug data).
Proof.
  revert user slug data. induction n as [|n IH]; intros user slug data.
  { by intros st Hend. }
  change (refines
    (bind (promise_all
             (map (fun rel => updateOrCreateRelation_with (updateOrCreate n)
                                user rel data) (getModelAttributes slug)))
          (fun _ => upsert slug data))
    (bind (promise_all
             (map (fun rel => updateOrCreateRelation_with (updateOrCreate (S n))
                                user rel data) (getModelAttributes slug)))
          (fun _ => upsert slug data))).
  apply refines_bind; [|intros; apply refines_refl].
  apply refines_promise_all, Forall2_fmap, Forall_Forall2_diag, Forall_forall.
  intros rel _. by apply refines_relation.
Qed.

(** X7: on a record without cycles [updateOrCreate] ends, returning or
    raising, as soon as the fuel is above the rank of the record, and the
    outcome is the same for every larger fuel: the recursion into nested
    records is well-founded and its result does not depend on the bound. *)
Theorem reconciliation_ends rk fuel user slug data st :
  store_scalar_ids -> scalar_id user ->
  ranked rk (st_heap st) ->
  vrank rk data < fuel ->
  updateOrCreate fuel user slug data st <> Diverge /\
  forall more,
    updateOrCreate (fuel + more) user slug data st =
    updateOrCreate fuel user slug data st.
Proof.
  intros Hstore Huser Hst Hfuel.
  assert (updateOrCreate fuel user slug data st <> Diverge) as Hend.
  { pose proof (updateOrCreate_safe rk user Hstore Huser False fuel slug data
                  (or_intror Hfuel) st Hst) as Hsafe.
    by destruct (updateOrCreate fuel user slug data st). }
  split; [exact Hend|]. intros more. induction more as [|more IH].
  - by rewrite Nat.add_0_r.
  - rewrite Nat.add_succ_r. rewrite <- IH.
    apply updateOrCreate_more_fuel. by rewrite IH.
Qed.

End Properties.

(** * The import at the example store *)

Module ExampleFacts.

Import Example.

Lemma store_ok : store_scalar_ids.
Proof.
  split.
  - intros slug data h db e db'. simpl. unfold create.
    destruct (_ && _); intros [= <- <-]. reflexivity.
  - intros slug w data h db e db'. simpl. unfold update.
    destruct (w !! "id") as [[| | |i| |]|]; try (intros [= <- <-]; reflexivity).
    destruct (_ && _)%Z; intros [= <- <-]; reflexivity.
Qed.

Lemma ranked0 : ranked (rank_of ranks0) h0.
Proof. apply ranked_b_sound. vm_compute. reflexivity. Qed.

Lemma both_report :
  both st0 = Ok (mkRes [mkFailure (Some no_title) (VRef 5)]) (final (both st0)).
Proof. vm_compute. reflexivity. Qed.

(** The article is written after its author and its tags, and with their
    identifiers in place of the nested records. *)
Example nested_then_parent :
  map (fun ev => (ev_slug ev, ev_data ev, field (ev_heap ev) (ev_data ev) "author"))
      (st_log (final (both st0))) =
  [ ("article", VRef 5, VNull);
    ("person", VRef 1, VUndef);
    ("tag", VRef 3, VUndef);
    ("tag", VRef 4, VUndef);
    ("article", VRef 0, VNum 2) ] /\
  array_elems (st_heap (final (both st0)))
    (get_own (st_heap (final (both st0))) 0 "tags") = [VNum 1; VNum 3].
Proof. vm_compute. split; reflexivity. Qed.


(** ** The theorems at this store and batch *)


Lemma audit_relation_overwritten_witness :
  exists st',
    updateOrCreateRelation 0 user createdBy (VRef 5) st0 = Ok tt st' /\
    get_own (st_heap st') 5 "createdBy" = VNum 42.
Proof.
  destruct (audit_relation_overwritten 0 user createdBy 5 _ st0
              (or_introl eq_refl) eq_refl (mk_is_Some _ _ eq_refl))
    as (st' & Hrun & Hfield & _).
  exists st'. split; [exact Hrun|exact Hfield].
Defined.

Lemma empty_or_scalar_relation_untouched_witness :
  updateOrCreateRelation 0 user author (VRef 5) st0 = Ok tt st0.
Proof.
  refine (proj2 (empty_or_scalar_relation_untouched user author 5 st0 eq_refl _) 0).
  intros n. vm_compute. intros H. discriminate H.
Defined.

Lemma single_relation_replaced_by_id_witness :
  exists st',
    updateOrCreateRelation 1 user author (VRef 0) st0 = Ok tt st' /\
    get_own (st_heap st') 0 "author" = VNum 2.
Proof.
  destruct (single_relation_replaced_by_id 1 user author 0 1 _ st0
              (Some {["id" := VNum 2]}) person_created
              eq_refl eq_refl eq_refl eq_refl eq_refl)
    as (st' & Hrun & _ & _ & _ & _ & Hid).
  exists st'. split; [exact Hrun|].
  exact (Hid _ (VNum 2) eq_refl eq_refl eq_refl).
Defined.

Lemma falsy_id_stored_as_null_witness :
  exists st',
    updateOrCreateRelation 1 user author (VRef 0) st_zero = Ok tt st' /\
    get_own (st_heap st') 0 "author" = VNull.
Proof.
  exact (falsy_id_stored_as_null 1 user author 0 1 _ st_zero {["id" := VNum 0]}
           (mkState h0 0%Z [EvCreate "person" (VRef 1) h0])
           eq_refl eq_refl eq_refl eq_refl eq_refl eq_refl).
Defined.

Lemma many_relation_replaced_by_ids_witness :
  exists st' a' ids,
    updateOrCreateRelation 1 user tags (VRef 0) st0 = Ok tt st' /\
    get_own (st_heap st') 0 "tags" = VRef a' /\
    st_heap st' !! a' = Some (CArr ids ∅) /\
    length ids = 2.
Proof.
  destruct (many_relation_replaced_by_ids 1 user tags 0 _ 2 [VRef 3; VRef 4] ∅
              st0 eq_refl eq_refl eq_refl eq_refl)
    as [Hmany _].
  destruct (Hmany [Some {["id" := VNum 1]}; Some {["id" := VNum 2]}]
              (final tags_reconciled))
    as (st' & a' & ids & Hrun & Hfield & Harr & Hlen & _).
  - vm_compute. reflexivity.
  - repeat constructor; by eexists.
  - exists st', a', ids. repeat split; assumption.
Defined.

Lemma update_first_else_create_witness :
  updateOrCreate 1 user "tag" (VRef 3) st0 =
    Ok (Some {["id" := VNum 1]})
       (mkState h0 1%Z [EvUpdate "tag" {["id" := VNum 1]} (VRef 3) h0]) /\
  (updateOrCreate 1 user "tag" (VRef 4) st0 =
     query_create "tag" (VRef 4) st0 /\
   st_log <$> res_state (updateOrCreate 1 user "tag" (VRef 4) st0) =
     Some [EvCreate "tag" (VRef 4) h0]).
Proof.
  split.
  - exact (proj2 (update_first_else_create 0 user "tag" 3 st0 [] st0 eq_refl)).
  - exact (proj2 (update_first_else_create 0 user "tag" 4 st0 [] st0 eq_refl)).
Defined.


Lemma failures_bounded_and_ordered_witness :
  length [mkFailure (Some no_title) (VRef 5)] <= length [VRef 5; VRef 0] /\
  map f_data [mkFailure (Some no_title) (VRef 5)] `sublist_of` [VRef 5; VRef 0].
Proof.
  destruct (failures_bounded_and_ordered (Bk:=backend) 4 [VRef 5; VRef 0]
              "article" json user st0 [VRef 5; VRef 0] st0 _ _ eq_refl both_report)
    as (Hlen & Hsub & _).
  split; [exact Hlen|exact Hsub].
Defined.

Lemma error_caught_at_batch_boundary_witness :
  exists ps2 st3,
    process 4 user "article" [VRef 0] untitled_failed = Ok ps2 st3 /\
    length ps2 = 1 /\
    both st0 =
      Ok (mkRes (mkFailure (Some no_title) (VRef 5) :: failures_of ps2)) st3.
Proof.
  destruct (error_caught_at_batch_boundary (Bk:=backend) 4 [VRef 5; VRef 0]
              "article" json user st0 [] (VRef 5) [VRef 0] st0 [] st0 no_title
              untitled_failed eq_refl eq_refl) as (_ & _ & Hends).
  - vm_compute. reflexivity.
  - apply (Hends (rank_of ranks0) store_ok eq_refl ranked0).
    simpl. repeat (apply List.Forall_cons; [vm_compute; lia|]).
    apply List.Forall_nil.
Defined.

End ExampleFacts.

(** * The further properties at the example stores *)

Module MoreFacts.

Import Example.

Lemma failures_and_successes_witness :
  exists processed,
    collected 4 user "article" [VRef 5; VRef 0] st0 processed (final (both st0)) /\
    length [mkFailure (Some no_title) (VRef 5)] +
      length (filter (fun p => success p = true) processed) = 2.
Proof.
  destruct (failures_and_successes (Bk:=backend) 4 [VRef 5; VRef 0] "article"
              json user st0 [VRef 5; VRef 0] st0 _ _ eq_refl
              ExampleFacts.both_report)
    as (processed & Hcol & Hlen & _).
  exists processed. split; [exact Hcol|exact Hlen].
Defined.

Lemma nothing_to_reconcile_raises_witness :
  updateOrCreate 1 user "article" VNull st0 = Throw TypeError st0.
Proof.
  exact (nothing_to_reconcile_raises 0 user "article" VNull st0 (or_introl eq_refl)).
Defined.

Lemma primitive_record_is_created_witness :
  updateOrCreate 1 user "article" (VNum 7) st0 = query_create "article" (VNum 7) st0.
Proof.
  exact (primitive_record_is_created 0 user "article" (VNum 7) st0 eq_refl
           (or_introl (mk_is_Some _ _ eq_refl))).
Defined.

Lemma title_is_no_relation : "title" ∉ map name (getModelAttributes "article").
Proof.
  simpl. intros Hin.
  repeat (apply elem_of_cons in Hin as [Hin|Hin]; [discriminate Hin|]).
  by apply elem_of_nil in Hin.
Qed.

Lemma other_fields_kept_witness :
  match updateOrCreate 4 user "article" (VRef 0) st0 with
  | Ok _ st' | Throw _ st' =>
      get_own (st_heap st') 0 "title" = get_own (st_heap st0) 0 "title" /\
      (forall l' c, rank_of ranks0 0 < rank_of ranks0 l' ->
         st_heap st0 !! l' = Some c -> st_heap st' !! l' = Some c)
  | Diverge => True
  end.
Proof.
  exact (other_fields_kept (rank_of ranks0) 3 user "article" 0 st0 "title"
           ExampleFacts.store_ok eq_refl ExampleFacts.ranked0
           title_is_no_relation).
Defined.

Lemma reconciliation_ends_witness :
  updateOrCreate 4 user "article" (VRef 0) st0 <> Diverge /\
  forall more,
    updateOrCreate (4 + more) user "article" (VRef 0) st0 =
    updateOrCreate 4 user "article" (VRef 0) st0.
Proof.
  apply (reconciliation_ends (rank_of ranks0) 4 user "article" (VRef 0) st0
           ExampleFacts.store_ok eq_refl ExampleFacts.ranked0).
  vm_compute. lia.
Defined.

Lemma audit_relation_needs_user_witness :
  (forall data st e st', updateOrCreate 4 None "article" data st <> Ok e st') /\
  length (failures
            (mkRes [mkFailure (Some TypeError) (VRef 5);
                    mkFailure (Some TypeError) (VRef 0)])) = 2.
Proof.
  destruct (audit_relation_needs_user (Bk:=backend) 4 [VRef 5; VRef 0] "article"
              json createdBy) as [Hnever Hall].
  - simpl. set_solver.
  - reflexivity.
  - split; [exact Hnever|].
    apply (Hall st0 [VRef 5; VRef 0] st0 _ (final (Example2.anonymous st0)) eq_refl).
    vm_compute. reflexivity.
Defined.

Lemma many_relation_missing_entry_witness :
  updateOrCreateRelation (Bk:=Example2.backend) 1 user tags (VRef 0) st0 =
  Throw TypeError
    (mkState h0 1%Z [EvUpdate "tag" {["id" := VNum 1]} (VRef 3) h0;
                     EvCreate "tag" (VRef 4) h0]).
Proof.
  apply (many_relation_missing_entry (Bk:=Example2.backend) 1 user tags 0 2
           [VRef 3; VRef 4] ∅ st0 [Some {["id" := VNum 1]}; None]).
  - reflexivity.
  - reflexivity.
  - reflexivity.
  - vm_compute. reflexivity.
  - set_solver.
Defined.

Lemma nested_error_surfaces_witness :
  updateOrCreateRelation (Bk:=Example2.backend) 1 user Example2.first (VRef 6)
    Example2.st1 =
  Throw no_title
    (final (updateOrCreate (Bk:=Example2.backend) 1 user "article" (VRef 5)
              Example2.st1)).
Proof.
  apply (nested_error_surfaces (Bk:=Example2.backend) 1 user "series"
           Example2.first [] 6 5 Example2.st1 no_title).
  - reflexivity.
  - reflexivity.
  - reflexivity.
  - reflexivity.
  - vm_compute. reflexivity.
Defined.

Lemma flat_record_own_write_only_witness :
  exists st1,
    updateOrCreate 1 user "article" (VRef 5) st0 = upsert "article" (VRef 5) st1 /\
    st_db st1 = st_db st0 /\ st_log st1 = st_log st0.
Proof.
  destruct (flat_record_own_write_only (Bk:=backend) 0 user "article" 5 st0)
    as (st1 & Hrun & Hdb & Hlog & _).
  - by eexists.
  - intros rel Hin Haudit. simpl in Hin.
    repeat (apply elem_of_cons in Hin as [->|Hin]; [by vm_compute|]).
    by apply elem_of_nil in Hin.
  - exists st1. split; [exact Hrun|]. split; [exact Hdb|exact Hlog].
Defined.

End MoreFacts.
